(** * TRACE-X recorder: a shallow embedding of [record.py]

    The development follows [src/record/src/record.py]:
    - [save_message], [write_to_file]: the record list handed to the sink;
    - [read_serial]: the byte-at-a-time GNSS framer (NMEA / UBX / Unknown);
    - [read_CAN_bus]: the CAN capture loop.

    Modelling conventions.
    - A Python [bytes] value is a [list byte]; [ser.read(size=1)] yields the
      empty value or one byte, or raises.
    - A Python [str] is the list of its Unicode code points.
    - [time.time()] readings are supplied by the environment, one record of
      readings per loop iteration ([Poll], [Recv]); they are integers here
      (microseconds for the [* 1e6] readings).
    - An exception is an explicit result; the [try / except / finally]
      structure of the source is written out. *)

From Stdlib Require Import List ZArith NArith Lia Bool String.
From Stdlib Require Import Strings.Byte.
Import ListNotations.

Local Open Scope Z_scope.

(** ** Python values *)

Definition bytes := list byte.
Definition str := list N.

Fixpoint bytes_eqb (a b : bytes) : bool :=
  match a, b with
  | [], [] => true
  | x :: a', y :: b' => Byte.eqb x y && bytes_eqb a' b'
  | _, _ => false
  end.

(** [len(b)] *)
Definition len {A} (l : list A) : Z := Z.of_nat (List.length l).

(** *** [bytes.hex()] and its inverse *)

Definition hex_digit (n : N) : N :=
  if (n <? 10)%N then (48 + n)%N else (87 + n)%N.

Definition hex_byte (b : byte) : str :=
  let n := Byte.to_N b in [hex_digit (n / 16); hex_digit (n mod 16)].

Definition hex (res : bytes) : str := flat_map hex_byte res.

Definition unhex_digit (c : N) : option N :=
  if ((48 <=? c) && (c <=? 57))%N then Some (c - 48)%N
  else if ((97 <=? c) && (c <=? 102))%N then Some (c - 87)%N
  else None.

Fixpoint fromhex (s : str) : option bytes :=
  match s with
  | [] => Some []
  | hi :: lo :: s' =>
      match unhex_digit hi, unhex_digit lo with
      | Some h, Some l =>
          match Byte.of_N (16 * h + l), fromhex s' with
          | Some b, Some r => Some (b :: r)
          | _, _ => None
          end
      | _, _ => None
      end
  | _ => None
  end.

(** *** [bytes.decode()]: strict UTF-8, [None] for [UnicodeDecodeError] *)

Definition between (lo n hi : N) : bool := ((lo <=? n) && (n <=? hi))%N.

(** continuation byte 0x80..0xBF *)
Definition cont (b : byte) : bool := between 128 (Byte.to_N b) 191.

(** payload bits of a byte known to be [>= base] *)
Definition bits (b : byte) (base : N) : N := (Byte.to_N b - base)%N.

(** allowed range of the second byte after a three- or four-byte lead *)
Definition second_range (lead : N) : N * N :=
  if (lead =? 224)%N then (160, 191)%N        (* E0: no overlong forms *)
  else if (lead =? 237)%N then (128, 159)%N   (* ED: no surrogates *)
  else if (lead =? 240)%N then (144, 191)%N   (* F0: no overlong forms *)
  else if (lead =? 244)%N then (128, 143)%N   (* F4: at most U+10FFFF *)
  else (128, 191)%N.

Definition second_ok (lead : N) (b : byte) : bool :=
  between (fst (second_range lead)) (Byte.to_N b) (snd (second_range lead)).

Definition push (c : N) (r : option str) : option str :=
  option_map (cons c) r.

Fixpoint decode (res : bytes) : option str :=
  match res with
  | [] => Some []
  | b0 :: r0 =>
      let n0 := Byte.to_N b0 in
      if (n0 <? 128)%N then push n0 (decode r0)
      else if (n0 <? 194)%N then None
      else if (n0 <? 224)%N then
        match r0 with
        | b1 :: r1 =>
            if cont b1
            then push (bits b0 192 * 64 + bits b1 128)%N (decode r1)
            else None
        | _ => None
        end
      else if (n0 <? 240)%N then
        match r0 with
        | b1 :: b2 :: r2 =>
            if second_ok n0 b1 && cont b2
            then push (bits b0 224 * 4096 + bits b1 128 * 64 + bits b2 128)%N
                      (decode r2)
            else None
        | _ => None
        end
      else if (n0 <? 245)%N then
        match r0 with
        | b1 :: b2 :: b3 :: r3 =>
            if second_ok n0 b1 && cont b2 && cont b3
            then push (bits b0 240 * 262144 + bits b1 128 * 4096
                       + bits b2 128 * 64 + bits b3 128)%N
                      (decode r3)
            else None
        | _ => None
        end
      else None
  end.

(** [str.encode()]: the UTF-8 encoding of a code point sequence *)

Definition byte_of (n : N) : byte :=
  match Byte.of_N n with Some b => b | None => x00 end.

Definition encode_point (c : N) : bytes :=
  if (c <? 128)%N then [byte_of c]
  else if (c <? 2048)%N then
    [byte_of (192 + c / 64); byte_of (128 + c mod 64)]
  else if (c <? 65536)%N then
    [byte_of (224 + c / 4096); byte_of (128 + (c / 64) mod 64);
     byte_of (128 + c mod 64)]
  else
    [byte_of (240 + c / 262144); byte_of (128 + (c / 4096) mod 64);
     byte_of (128 + (c / 64) mod 64); byte_of (128 + c mod 64)].

Definition encode (s : str) : bytes := flat_map encode_point s.

(** ** Records and [save_message] *)

(** The three strings passed as [message_type]. *)
Inductive MessageType := NMEA | UBX | Unknown.

(** The dict built by [save_message]. *)
Record Message := mkMessage {
  timestamp : Z;
  type : MessageType;
  data : str
}.

(** [message_type in ["UBX", "Unknown"]] *)
Definition hex_typed (message_type : MessageType) : bool :=
  match message_type with UBX | Unknown => true | NMEA => false end.

(** The expression of line 35; [None] when [res.decode()] raises. *)
Definition render (res : bytes) (message_type : MessageType) : option str :=
  if hex_typed message_type then Some (hex res) else decode res.

(** [save_message]: the [try] body appends the dict and the [finally]
    clause appends it again; when the dict cannot be built the bare
    [except] builds the "Unknown" dict and [finally] appends it. *)
Definition save_message (messages : list Message) (res : bytes)
    (timestamp : Z) (message_type : MessageType) : list Message :=
  match render res message_type with
  | Some d =>
      let data := mkMessage timestamp message_type d in
      (messages ++ [data]) ++ [data]
  | None =>
      let data := mkMessage timestamp Unknown (hex res) in
      messages ++ [data]
  end.

(** [write_to_file]: the sink receives [json.dumps(list(messages))]; the
    file content is the record list itself. *)
Definition write_to_file (messages : list Message) : list Message := messages.

(** The bytes a record stands for: the inverse of [render]. *)
Definition payload (m : Message) : option bytes :=
  if hex_typed (type m) then fromhex (data m) else Some (encode (data m)).

(** ** The serial framer: [read_serial] *)

Definition NULL_CNT : Z := 500000.

(** The three boundary windows: [b'$G'], [b'\r\n'] and [b'\xb5\x62']. *)
Definition NMEA_START : bytes := [x24; x47].
Definition CRLF : bytes := [x0d; x0a].
Definition UBX_SYNC : bytes := [xb5; x62].

(** What [ser.read(size=1)] does in one iteration. *)
Inductive Read :=
| NoData                (* b'' : nothing within the timeout *)
| OneByte (b : byte)
| SerialError.          (* the call raises *)

Definition data_of (r : Read) : bytes :=
  match r with OneByte b => [b] | _ => [] end.

(** The environment of one loop iteration. *)
Record Poll := mkPoll {
  read : Read;                (* line 153 *)
  now : Z;                    (* [time.time() * 1e6] at lines 174/185/193 *)
  t : Z;                      (* [time.time()] at line 197 *)
  TERMINATOR_FLAG : bool      (* the global, as read at line 198 *)
}.

(** The local variables of [read_serial]. *)
Record State := mkState {
  messages : list Message;
  queue : bytes;
  ubx_flag : bool;
  ubx_timestamp : option Z;
  nmea_timestamp : option Z;
  unknown_timestamp : option Z;
  previous_data : bytes;
  null_cnt : Z
}.

(** Lines 136-145. *)
Definition init : State :=
  mkState [] [] false None None None [] 0.

Inductive Stop :=
| Stalled        (* line 161: "Serial stopped sending data" *)
| Expired        (* line 198: end_time passed *)
| Interrupted    (* line 198: TERMINATOR_FLAG *)
| Raised.        (* an exception reached line 201 *)

Inductive Step :=
| Next (st : State)
| Break (why : Stop) (st : State).

(** [ts - flat_time]; subtracting from [None] raises [TypeError]. *)
Definition since (flat_time : Z) (ts : option Z) : option Z :=
  option_map (fun x => x - flat_time) ts.

(** Assignments to [null_cnt] and to [previous_data]. *)
Definition set_null_cnt (st : State) (n : Z) : State :=
  mkState (messages st) (queue st) (ubx_flag st) (ubx_timestamp st)
          (nmea_timestamp st) (unknown_timestamp st) (previous_data st) n.

Definition set_previous_data (st : State) (d : bytes) : State :=
  mkState (messages st) (queue st) (ubx_flag st) (ubx_timestamp st)
          (nmea_timestamp st) (unknown_timestamp st) d (null_cnt st).

(** The two-byte windows at which [read_serial] acts. *)
Definition boundary (w : bytes) : bool :=
  bytes_eqb w NMEA_START || bytes_eqb w CRLF || bytes_eqb w UBX_SYNC.

(** No two neighbouring bytes of [prev :: bs] form a boundary window. *)
Fixpoint no_boundary (prev : byte) (bs : bytes) : bool :=
  match bs with
  | [] => true
  | b :: bs' => negb (boundary [prev; b]) && no_boundary b bs'
  end.

(** The places [read_serial] calls [save_message] from. *)
Inductive Site :=
| FrameStart       (* lines 171, 173, 189, 191 *)
| LineEnd          (* line 180 *)
| BinaryLineEnd.   (* line 182 *)

(** One [save_message] call of the loop: where it is made and what it is
    given. *)
Record Call := mkCall {
  call_site : Site;
  call_res : bytes;
  call_timestamp : Z;
  call_type : MessageType
}.

(** The input bytes a call accounts for: its payload, and for a binary
    frame closed by a line end also the two bytes of the window, which are
    in no payload. *)
Definition covered (c : Call) : bytes :=
  call_res c ++ match call_site c with BinaryLineEnd => CRLF | _ => [] end.

(** The records after the calls [cs] are made on [ms], in order. *)
Definition replay (cs : list Call) (ms : list Message) : list Message :=
  fold_left (fun acc c =>
               save_message acc (call_res c) (call_timestamp c) (call_type c))
            cs ms.

(** What links [queue] and [previous_data] in every state the loop
    reaches: [previous_data] is at most one byte, and a non-empty queue
    ends with it. *)
Definition Inv (st : State) : Prop :=
  (List.length (previous_data st) <= 1)%nat /\
  (queue st = [] \/ exists q, queue st = q ++ previous_data st).

(** The timestamp variable the branch taken on window [w] subtracts
    [flat_time] from, when that branch calls [save_message]: [Some ts]
    with [ts] the current value of the variable, [None] when the branch
    makes no call. *)
Definition needed_timestamp (st : State) (w : bytes) : option (option Z) :=
  if bytes_eqb w NMEA_START || bytes_eqb w UBX_SYNC then
    if ubx_flag st then Some (ubx_timestamp st)
    else if 0 <? len (queue st) - 1 then Some (unknown_timestamp st)
    else None
  else if bytes_eqb w CRLF then
    if ubx_flag st then Some (ubx_timestamp st) else Some (nmea_timestamp st)
  else None.

Section Framer.

(** [flat_time] of line 143 and [end_time] after line 149. *)
Variable flat_time : Z.
Variable end_time : option Z.

(** Lines 170-173 and 188-191: close what is pending when a new frame
    starts.  [None] is the [TypeError] of a [None] timestamp. *)
Definition close_pending (st : State) : option (list Message) :=
  if ubx_flag st then
    option_map (fun ts => save_message (messages st) (removelast (queue st)) ts UBX)
               (since flat_time (ubx_timestamp st))
  else if 0 <? len (queue st) - 1 then
    option_map (fun ts => save_message (messages st) (removelast (queue st)) ts Unknown)
               (since flat_time (unknown_timestamp st))
  else Some (messages st).

(** Lines 168-196: the dispatch on the two-byte window. *)
Definition dispatch (st : State) (data : bytes) (now : Z) : option State :=
  let last_two_bytes := previous_data st ++ data in
  if bytes_eqb last_two_bytes NMEA_START then
    match close_pending st with
    | Some ms =>
        Some (mkState ms last_two_bytes false (ubx_timestamp st) (Some now)
                      (unknown_timestamp st) (previous_data st) (null_cnt st))
    | None => None
    end
  else if bytes_eqb last_two_bytes CRLF then
    if negb (ubx_flag st) then
      match since flat_time (nmea_timestamp st) with
      | Some ts =>
          Some (mkState (save_message (messages st) (queue st ++ [x0a]) ts NMEA)
                        [] (ubx_flag st) (ubx_timestamp st) (nmea_timestamp st)
                        (Some now) (previous_data st) (null_cnt st))
      | None => None
      end
    else
      match since flat_time (ubx_timestamp st) with
      | Some ts =>
          Some (mkState (save_message (messages st) (removelast (queue st)) ts UBX)
                        [] false (ubx_timestamp st) (nmea_timestamp st)
                        (Some now) (previous_data st) (null_cnt st))
      | None => None
      end
  else if bytes_eqb last_two_bytes UBX_SYNC then
    match close_pending st with
    | Some ms =>
        Some (mkState ms last_two_bytes true (Some now) (nmea_timestamp st)
                      (unknown_timestamp st) (previous_data st) (null_cnt st))
    | None => None
    end
  else
    Some (mkState (messages st) (queue st ++ data) (ubx_flag st)
                  (ubx_timestamp st) (nmea_timestamp st)
                  (unknown_timestamp st) (previous_data st) (null_cnt st)).

(** [end_time is not None and t > end_time] *)
Definition past_deadline (t : Z) : bool :=
  match end_time with Some e => e <? t | None => false end.

(** One pass through the body of [while True] (lines 153-200). *)
Definition iteration (st : State) (p : Poll) : Step :=
  match read p with
  | SerialError => Break Raised st
  | r =>
      let data := data_of r in
      let st := set_null_cnt st
                  (match data with [] => null_cnt st + 1 | _ => 0 end) in
      if NULL_CNT <? null_cnt st then Break Stalled st
      else if len (queue st) <? 1 then
        Next (mkState (messages st) (queue st ++ data) (ubx_flag st)
                      (ubx_timestamp st) (nmea_timestamp st)
                      (unknown_timestamp st) data (null_cnt st))
      else
        match dispatch st data (now p) with
        | None => Break Raised st
        | Some st' =>
            if past_deadline (t p) then Break Expired st'
            else if TERMINATOR_FLAG p then Break Interrupted st'
            else Next (set_previous_data st' data)
        end
  end.

(** The result of running the loop over a finite script of polls: either
    the script is used up and the loop is still going, or it has stopped
    and the remaining polls were never made. *)
Inductive Outcome :=
| Running (st : State)
| Stopped (why : Stop) (st : State) (unread : list Poll).

Fixpoint loop (st : State) (ps : list Poll) : Outcome :=
  match ps with
  | [] => Running st
  | p :: ps' =>
      match iteration st p with
      | Next st' => loop st' ps'
      | Break why st' => Stopped why st' ps'
      end
  end.

(** Lines 201-205: whatever ended the loop, [finally] writes [messages]. *)
Definition written (o : Outcome) : option (list Message) :=
  match o with
  | Running _ => None
  | Stopped _ st _ => Some (write_to_file (messages st))
  end.

(** The poll carries no stop request. *)
Definition calm (p : Poll) : bool :=
  negb (past_deadline (t p)) && negb (TERMINATOR_FLAG p).

(** The [save_message] call made by [close_pending], if it makes one. *)
Definition pending_call (st : State) : list Call :=
  if ubx_flag st then
    match since flat_time (ubx_timestamp st) with
    | Some ts => [mkCall FrameStart (removelast (queue st)) ts UBX]
    | None => []
    end
  else if 0 <? len (queue st) - 1 then
    match since flat_time (unknown_timestamp st) with
    | Some ts => [mkCall FrameStart (removelast (queue st)) ts Unknown]
    | None => []
    end
  else [].

(** The [save_message] call made by [dispatch], if it makes one. *)
Definition dispatch_calls (st : State) (data : bytes) : list Call :=
  let last_two_bytes := previous_data st ++ data in
  if bytes_eqb last_two_bytes NMEA_START then pending_call st
  else if bytes_eqb last_two_bytes CRLF then
    if negb (ubx_flag st) then
      match since flat_time (nmea_timestamp st) with
      | Some ts => [mkCall LineEnd (queue st ++ [x0a]) ts NMEA]
      | None => []
      end
    else
      match since flat_time (ubx_timestamp st) with
      | Some ts => [mkCall BinaryLineEnd (removelast (queue st)) ts UBX]
      | None => []
      end
  else if bytes_eqb last_two_bytes UBX_SYNC then pending_call st
  else [].

(** The call made by one iteration. *)
Definition calls (st : State) (p : Poll) : list Call :=
  match read p with
  | SerialError => []
  | r =>
      if len (queue st) <? 1 then []
      else dispatch_calls st (data_of r)
  end.

(** The calls made by a run, in order. *)
Fixpoint log (st : State) (ps : list Poll) : list Call :=
  match ps with
  | [] => []
  | p :: ps' =>
      match iteration st p with
      | Next st' => calls st p ++ log st' ps'
      | Break Raised _ | Break Stalled _ => []
      | Break _ _ => calls st p
      end
  end.

(** The state a run ends in. *)
Definition final (o : Outcome) : State :=
  match o with Running st => st | Stopped _ st _ => st end.

(** The polls a run makes: up to and including the one it stops at. *)
Fixpoint polled (st : State) (ps : list Poll) : list Poll :=
  match ps with
  | [] => []
  | p :: ps' =>
      p :: match iteration st p with
           | Next st' => polled st' ps'
           | Break _ _ => []
           end
  end.

(** The run ended in the exception handler. *)
Definition raised (o : Outcome) : bool :=
  match o with Stopped Raised _ _ => true | _ => false end.

(** The byte read by the iteration that raised, which reached neither the
    queue nor a payload. *)
Fixpoint lost (st : State) (ps : list Poll) : bytes :=
  match ps with
  | [] => []
  | p :: ps' =>
      match iteration st p with
      | Next st' => lost st' ps'
      | Break Raised _ => data_of (read p)
      | Break _ _ => []
      end
  end.

End Framer.

(** [read_serial]: [flat] and [start] are the clock readings of lines 143
    and 149; the result is what [write_to_file] put into the file, [None]
    while the loop is still running. *)
Definition read_serial (end_time : option Z) (flat start : Z)
    (ps : list Poll) : option (list Message) :=
  written (loop flat (option_map (fun e => start + e) end_time) init ps).

(** A poll that delivers byte [b] at clock [c] with no stop request. *)
Definition feed (c : Z) (b : byte) : Poll := mkPoll (OneByte b) c c false.

(** An empty read at clock [c] with no stop request. *)
Definition idle (c : Z) : Poll := mkPoll NoData c c false.

(** The bytes delivered by a script. *)
Definition delivered (ps : list Poll) : bytes :=
  flat_map (fun p => data_of (read p)) ps.

(** ** The CAN capture loop: [read_CAN_bus] *)

(** A [can.Message] as the loop uses it. *)
Record CanMessage := mkCanMessage {
  arbitration_id : Z;
  can_data : bytes;          (* message.data *)
  can_timestamp : Z          (* message.timestamp *)
}.

(** What [can_bus.recv(CAN_WAIT_TIME)] does in one iteration: it returns a
    message, returns [None] when the wait time passes, or raises. *)
Inductive Recv :=
| Returned (message : option CanMessage)
| BusError.

Record CanPoll := mkCanPoll {
  recv : Recv;                   (* line 98 *)
  can_t : Z;                     (* [time.time()] at line 114 *)
  can_TERMINATOR_FLAG : bool     (* the global, as read at line 115 *)
}.

Inductive CanStop :=
| WaitExpired    (* line 112: "Expired waiting time for CAN bus messages" *)
| CanExpired     (* line 115: end_time passed *)
| CanInterrupted (* line 115: TERMINATOR_FLAG *)
| CanRaised.     (* an exception reached line 117 *)

(** [message.arbitration_id]: attribute access on [None] raises. *)
Definition get_arbitration_id (message : option CanMessage) : option Z :=
  option_map arbitration_id message.

(** [if message:] -- [None] is false, a [can.Message] is true. *)
Definition truthy (message : option CanMessage) : bool :=
  match message with Some _ => true | None => false end.

Section CanBus.

(** The decode database ([cantools]) is an external collaborator: the
    identifiers of its messages and its [decode_message], which raises
    ([None]) when it cannot decode. *)
Variable Decoded : Type.
Variable message_ids : list Z.
Variable decode_message : Z -> bytes -> option Decoded.
Variable end_time : option Z.

(** The dict appended at line 109. *)
Record CanObject := mkCanObject {
  obj_timestamp : Z;
  obj_arbitration_id : Z;
  obj_data : Decoded
}.

Inductive CanStep :=
| CanNext (can_messages : list CanObject)
| CanBreak (why : CanStop) (can_messages : list CanObject).

(** [x not in message_ids] *)
Definition not_in (x : Z) (ids : list Z) : bool :=
  negb (existsb (Z.eqb x) ids).

Definition can_past_deadline (t : Z) : bool :=
  match end_time with Some e => e <? t | None => false end.

(** One pass through the body of [while True] (lines 98-116). *)
Definition can_iteration (can_messages : list CanObject) (p : CanPoll)
    : CanStep :=
  match recv p with
  | BusError => CanBreak CanRaised can_messages
  | Returned message =>
      match get_arbitration_id message with
      | None => CanBreak CanRaised can_messages
      | Some id =>
          if not_in id message_ids then CanNext can_messages
          else
            let after :=
              if truthy message then
                match message with
                | Some m =>
                    match decode_message (arbitration_id m) (can_data m) with
                    | Some decoded_message =>
                        CanNext (can_messages ++
                                 [mkCanObject (can_timestamp m)
                                              (arbitration_id m)
                                              decoded_message])
                    | None => CanBreak CanRaised can_messages
                    end
                | None => CanBreak CanRaised can_messages
                end
              else CanBreak WaitExpired can_messages in
            match after with
            | CanNext ms =>
                if can_past_deadline (can_t p) then CanBreak CanExpired ms
                else if can_TERMINATOR_FLAG p then CanBreak CanInterrupted ms
                else CanNext ms
            | stop => stop
            end
      end
  end.

Inductive CanOutcome :=
| CanRunning (can_messages : list CanObject)
| CanStopped (why : CanStop) (can_messages : list CanObject)
             (unread : list CanPoll).

Fixpoint can_loop (can_messages : list CanObject) (ps : list CanPoll)
    : CanOutcome :=
  match ps with
  | [] => CanRunning can_messages
  | p :: ps' =>
      match can_iteration can_messages p with
      | CanNext ms => can_loop ms ps'
      | CanBreak why ms => CanStopped why ms ps'
      end
  end.

(** Lines 120-123: the file is written only when a record exists. *)
Definition can_written (o : CanOutcome) : option (list CanObject) :=
  match o with
  | CanRunning _ => None
  | CanStopped _ ms _ => if 0 <? len ms then Some ms else None
  end.

(** [read_CAN_bus], from line 97 on. *)
Definition read_CAN_bus (ps : list CanPoll) : CanOutcome :=
  can_loop [] ps.

(** The records a run has accumulated, stopped or not. *)
Definition can_records (o : CanOutcome) : list CanObject :=
  match o with
  | CanRunning ms => ms
  | CanStopped _ ms _ => ms
  end.

(** The record the loop appends for what [recv] returned, if any: the
    decoded frame when its identifier is known and it decodes. *)
Definition can_record_of (p : CanPoll) : list CanObject :=
  match recv p with
  | Returned (Some m) =>
      if not_in (arbitration_id m) message_ids then []
      else match decode_message (arbitration_id m) (can_data m) with
           | Some d => [mkCanObject (can_timestamp m) (arbitration_id m) d]
           | None => []
           end
  | _ => []
  end.

(** The [recv] calls a run makes: up to and including the one it stops
    at. *)
Fixpoint can_polled (ms : list CanObject) (ps : list CanPoll)
    : list CanPoll :=
  match ps with
  | [] => []
  | p :: ps' =>
      p :: match can_iteration ms p with
           | CanNext ms' => can_polled ms' ps'
           | CanBreak _ _ => []
           end
  end.

(** The poll carries no stop request. *)
Definition can_calm (p : CanPoll) : bool :=
  negb (can_past_deadline (can_t p)) && negb (can_TERMINATOR_FLAG p).

End CanBus.

Arguments CanNext {Decoded} _.
Arguments CanBreak {Decoded} _ _.
Arguments CanRunning {Decoded} _.
Arguments CanStopped {Decoded} _ _ _.
Arguments mkCanObject {Decoded} _ _ _.
Arguments obj_arbitration_id {Decoded} _.
Arguments obj_timestamp {Decoded} _.
Arguments obj_data {Decoded} _.
Arguments can_records {Decoded} _.

(** ** The output files: [setup_file], [write_to_file], [close_file] *)

Module Files.

(** A file object together with the file it is opened on. *)
Record File := mkFile {
  content : string;     (* what the file holds *)
  position : nat;       (* the stream position *)
  closed : bool
}.

(** [open(filename, "a")]: the file is created empty when it is missing
    ([None]); the stream stands at the end. *)
Definition open_append (old : option string) : File :=
  let c := match old with Some c => c | None => EmptyString end in
  mkFile c (String.length c) false.

(** [f.seek(n)] *)
Definition seek (f : File) (n : nat) : File :=
  mkFile (content f) n (closed f).

(** [f.truncate()]: cut the file at the stream position. *)
Definition truncate (f : File) : File :=
  mkFile (substring 0 (position f) (content f)) (position f) (closed f).

(** [f.write(s)] on a file opened for appending: the text goes to the end
    of the file, wherever the stream stands. *)
Definition write (f : File) (s : string) : File :=
  mkFile (content f ++ s) (String.length (content f ++ s)) (closed f).

(** [f.close()], which is all [close_file] does. *)
Definition close_file (f : File) : File :=
  mkFile (content f) (position f) true.

(** Lines 71-76. *)
Definition setup_file (old : option string) : File :=
  truncate (seek (open_append old) 0).

Section Dump.

(** [json.dumps(list(messages))], for the records of either loop. *)
Variable A : Type.
Variable dumps : list A -> string.

(** Lines 55-59. *)
Definition write_to_file (f : File) (messages : list A) : File :=
  close_file (write f (dumps messages)).

(** The file of a loop: opened by [setup_file] before the loop, and
    written by [finally] with what the loop hands over, if it does. *)
Definition file_after (old : option string) (handed : option (list A)) : File :=
  match handed with
  | Some messages => write_to_file (setup_file old) messages
  | None => setup_file old
  end.

End Dump.

End Files.

(** ** [main] *)

(** The arguments [main] uses to choose and to bound the loops. *)
Record Args := mkArgs {
  enable_serial : bool;
  enable_CAN : bool;
  end_time_arg : option Z      (* --end_time, None when not given *)
}.

(** [read_serial] up to its [finally] clause: the run of the loop, with
    [end_time] as line 149 leaves it. *)
Definition serial_run (end_time : option Z) (flat start : Z)
    (ps : list Poll) : Outcome :=
  loop flat (option_map (fun e => start + e) end_time) init ps.

(** What the two loops started by [main] did; [None] for a loop that is
    not enabled. *)
Record Capture (Decoded : Type) := mkCapture {
  can_capture : option (CanOutcome Decoded);
  serial_capture : option Outcome
}.

Arguments mkCapture {Decoded} _ _.
Arguments can_capture {Decoded} _.
Arguments serial_capture {Decoded} _.

(** Lines 239-275.  The assertion of line 243 fails ([None]) when neither
    loop is enabled.  The CAN thread is given [end_time] as parsed (line
    254) and so is [read_serial] (line 272); the two loops share nothing
    but the termination flag, whose readings the polls carry, so each
    runs on its own script. *)
Definition main (Decoded : Type) (message_ids : list Z)
    (decode_message : Z -> bytes -> option Decoded) (args : Args)
    (cps : list CanPoll) (flat start : Z) (ps : list Poll)
    : option (Capture Decoded) :=
  if negb (enable_serial args || enable_CAN args) then None
  else
    Some (mkCapture
            (if enable_CAN args
             then Some (read_CAN_bus Decoded message_ids decode_message
                                     (end_time_arg args) cps)
             else None)
            (if enable_serial args
             then Some (serial_run (end_time_arg args) flat start ps)
             else None)).

(** ** Vocabulary of the statements *)

(** A script of empty reads. *)
Definition all_empty (ps : list Poll) : Prop :=
  Forall (fun p => read p = NoData) ps.

(** The state after an iteration, however it ended. *)
Definition step_state (s : Step) : State :=
  match s with Next st => st | Break _ st => st end.

(** The iteration ended in the exception handler. *)
Definition step_raised (s : Step) : bool :=
  match s with Break Raised _ => true | _ => false end.

(** The script delivers exactly the bytes [bs], one per read. *)
Definition delivers (ps : list Poll) (bs : bytes) : Prop :=
  map read ps = map OneByte bs.

(** Nothing but the queue, the previous byte and the counter differs. *)
Definition same_frame (st st' : State) : Prop :=
  messages st' = messages st /\ ubx_flag st' = ubx_flag st /\
  ubx_timestamp st' = ubx_timestamp st /\
  nmea_timestamp st' = nmea_timestamp st /\
  unknown_timestamp st' = unknown_timestamp st.

(** The bytes of a record list: the payloads, in order. *)
Definition payloads (ms : list Message) : option bytes :=
  fold_right (fun m acc =>
                match payload m, acc with
                | Some a, Some b => Some (a ++ b)
                | _, _ => None
                end) (Some []) ms.

(** A script of byte reads at clock [c], the last one made with the
    termination flag set. *)
Definition then_terminate (c : Z) (bs : bytes) (b : byte) : list Poll :=
  map (feed c) bs ++ [mkPoll (OneByte b) c c true].

(** The sentence of the boundary-determinism property. *)
Definition GPGGA : bytes := list_byte_of_string "$GPGGA,..." ++ CRLF.

(** [records_of cs ms]: the record list [ms] is made, call by call and in
    order, of one or more records per call of [cs], each of them standing
    for the payload and carrying the timestamp handed to that call. *)
Inductive records_of : list Call -> list Message -> Prop :=
| records_nil : records_of [] []
| records_call c cs added ms :
    added <> [] ->
    Forall (fun m => payload m = Some (call_res c) /\
                     timestamp m = call_timestamp c) added ->
    records_of cs ms ->
    records_of (c :: cs) (added ++ ms).

(** While the binary flag is set, the binary timestamp has been taken and
    the queue begins with the sync pattern. *)
Definition Binary_inv (st : State) : Prop :=
  ubx_flag st = true ->
  ubx_timestamp st <> None /\ exists r, queue st = UBX_SYNC ++ r.

(** The NMEA and the idle timestamps have both been taken. *)
Definition ready (st : State) : Prop :=
  nmea_timestamp st <> None /\ unknown_timestamp st <> None.

(** The read of the poll does not raise. *)
Definition no_error (p : Poll) : bool :=
  match read p with SerialError => false | _ => true end.

(** What every record of [read_serial] looks like: it stands for a
    non-empty payload, which begins with the sync pattern when the record
    is tagged "UBX" and ends with CR LF when it is tagged "NMEA". *)
Definition call_shape (c : Call) : Prop :=
  call_res c <> [] /\
  (call_type c = UBX -> exists r, call_res c = UBX_SYNC ++ r) /\
  (call_type c = NMEA -> exists q, call_res c = q ++ CRLF).

Definition record_shape (m : Message) : Prop :=
  exists res, payload m = Some res /\ res <> [] /\
    (type m = UBX -> exists r, res = UBX_SYNC ++ r) /\
    (type m = NMEA -> exists q, res = q ++ CRLF).

(** * Properties *)

(** ** Python values *)

Lemma bytes_eqb_eq (a b : bytes) : bytes_eqb a b = true <-> a = b.
Proof.
  revert b; induction a as [|x a IH]; intros [|y b]; simpl;
    try (split; [discriminate | congruence]); try tauto.
  rewrite andb_true_iff, IH. split.
  - intros [Hxy ->]. apply Byte.byte_dec_bl in Hxy. now subst.
  - intros H; injection H as -> ->. split; [now apply Byte.byte_dec_lb | reflexivity].
Qed.

Lemma fromhex_hex_byte (b : byte) (s : str) :
  fromhex (hex_byte b ++ s) =
  match fromhex s with Some r => Some (b :: r) | None => None end.
Proof. destruct b; reflexivity. Qed.

(** [bytes.fromhex(res.hex()) == res]: the hex form keeps every byte. *)
Lemma fromhex_hex (res : bytes) : fromhex (hex res) = Some res.
Proof.
  induction res as [|b r IH]; [reflexivity|].
  unfold hex in *; cbn [flat_map]. now rewrite fromhex_hex_byte, IH.
Qed.

(** *** UTF-8: what [decode] accepts, [encode] gives back *)

Local Open Scope N_scope.

Lemma byte_of_to_N b : byte_of (Byte.to_N b) = b.
Proof. unfold byte_of. now rewrite Byte.of_to_N. Qed.

Lemma between_spec lo n hi : between lo n hi = true <-> lo <= n <= hi.
Proof. unfold between. rewrite andb_true_iff, !N.leb_le. tauto. Qed.

Lemma encode_point_1 n : n < 128 -> encode_point n = [byte_of n].
Proof. intros H. unfold encode_point. apply N.ltb_lt in H. now rewrite H. Qed.

Lemma encode_point_2 n0 n1 :
  194 <= n0 < 224 -> 128 <= n1 <= 191 ->
  encode_point ((n0 - 192) * 64 + (n1 - 128)) = [byte_of n0; byte_of n1].
Proof.
  intros H0 H1. unfold encode_point.
  set (c := (n0 - 192) * 64 + (n1 - 128)).
  assert (c / 64 = n0 - 192 /\ c mod 64 = n1 - 128) as [Hd Hm].
  { subst c. split.
    - rewrite N.div_add_l by lia. rewrite N.div_small by lia. lia.
    - rewrite N.add_comm, N.Div0.mod_add. apply N.mod_small. lia. }
  replace (c <? 128) with false by (symmetry; apply N.ltb_ge; subst c; lia).
  replace (c <? 2048) with true by (symmetry; apply N.ltb_lt; subst c; lia).
  rewrite Hd, Hm. repeat f_equal; lia.
Qed.

(** Linear arithmetic with division and remainder by constants. *)
Ltac divlia := zify; Z.to_euclidean_division_equations; lia.

Lemma encode_point_3 n0 n1 n2 :
  224 <= n0 < 240 ->
  fst (second_range n0) <= n1 <= snd (second_range n0) ->
  128 <= n2 <= 191 ->
  encode_point ((n0 - 224) * 4096 + (n1 - 128) * 64 + (n2 - 128))
    = [byte_of n0; byte_of n1; byte_of n2].
Proof.
  intros H0 H1 H2. unfold encode_point.
  set (c := (n0 - 224) * 4096 + (n1 - 128) * 64 + (n2 - 128)).
  assert (128 <= n1 <= 191 /\ (n0 = 224 -> 160 <= n1)) as [H1' H1''].
  { unfold second_range in H1.
    destruct (n0 =? 224) eqn:E; [apply N.eqb_eq in E; simpl in H1; lia|].
    apply N.eqb_neq in E.
    destruct (n0 =? 237); [simpl in H1; lia|].
    replace (n0 =? 240) with false in H1 by (symmetry; apply N.eqb_neq; lia).
    replace (n0 =? 244) with false in H1 by (symmetry; apply N.eqb_neq; lia).
    simpl in H1. lia. }
  assert (c / 4096 = n0 - 224 /\ (c / 64) mod 64 = n1 - 128 /\ c mod 64 = n2 - 128)
    as (Hd & Hm1 & Hm2) by (subst c; repeat split; divlia).
  replace (c <? 128) with false by (symmetry; apply N.ltb_ge; subst c; lia).
  replace (c <? 2048) with false by (symmetry; apply N.ltb_ge; subst c; lia).
  replace (c <? 65536) with true by (symmetry; apply N.ltb_lt; subst c; lia).
  rewrite Hd, Hm1, Hm2. repeat f_equal; lia.
Qed.

Lemma encode_point_4 n0 n1 n2 n3 :
  240 <= n0 < 245 ->
  fst (second_range n0) <= n1 <= snd (second_range n0) ->
  128 <= n2 <= 191 -> 128 <= n3 <= 191 ->
  encode_point ((n0 - 240) * 262144 + (n1 - 128) * 4096 + (n2 - 128) * 64 + (n3 - 128))
    = [byte_of n0; byte_of n1; byte_of n2; byte_of n3].
Proof.
  intros H0 H1 H2 H3. unfold encode_point.
  set (c := (n0 - 240) * 262144 + (n1 - 128) * 4096 + (n2 - 128) * 64 + (n3 - 128)).
  assert (128 <= n1 <= 191 /\ (n0 = 240 -> 144 <= n1)) as [H1' H1''].
  { unfold second_range in H1.
    replace (n0 =? 224) with false in H1 by (symmetry; apply N.eqb_neq; lia).
    replace (n0 =? 237) with false in H1 by (symmetry; apply N.eqb_neq; lia).
    destruct (n0 =? 240) eqn:E; [apply N.eqb_eq in E; simpl in H1; lia|].
    apply N.eqb_neq in E.
    destruct (n0 =? 244); simpl in H1; lia. }
  assert (c / 262144 = n0 - 240 /\ (c / 4096) mod 64 = n1 - 128 /\
          (c / 64) mod 64 = n2 - 128 /\ c mod 64 = n3 - 128)
    as (Hd & Hm1 & Hm2 & Hm3) by (subst c; repeat split; divlia).
  replace (c <? 128) with false by (symmetry; apply N.ltb_ge; subst c; lia).
  replace (c <? 2048) with false by (symmetry; apply N.ltb_ge; subst c; lia).
  replace (c <? 65536) with false by (symmetry; apply N.ltb_ge; subst c; lia).
  rewrite Hd, Hm1, Hm2, Hm3. repeat f_equal; lia.
Qed.

Lemma push_some c r s : push c r = Some s -> exists s', r = Some s' /\ s = c :: s'.
Proof. destruct r as [s'|]; simpl; [|discriminate]. intros H; injection H as <-. eauto. Qed.

Lemma encode_cons c s : encode (c :: s) = encode_point c ++ encode s.
Proof. reflexivity. Qed.

Lemma encode_decode_bounded n : forall res s,
  (List.length res <= n)%nat -> decode res = Some s -> encode s = res.
Proof.
  induction n as [|n IH]; intros res s Hlen H.
  - destruct res; [|simpl in Hlen; lia]. injection H as <-. reflexivity.
  - destruct res as [|b0 r0]; [injection H as <-; reflexivity|].
    cbn [decode] in H. cbn [List.length] in Hlen.
    destruct (Byte.to_N b0 <? 128) eqn:E1.
    { apply push_some in H as (s' & Hs' & ->). apply N.ltb_lt in E1.
      rewrite encode_cons, encode_point_1, byte_of_to_N by assumption.
      simpl. f_equal. apply IH; [lia | assumption]. }
    destruct (Byte.to_N b0 <? 194) eqn:E2; [discriminate|].
    apply N.ltb_ge in E1, E2.
    destruct (Byte.to_N b0 <? 224) eqn:E3.
    { apply N.ltb_lt in E3.
      destruct r0 as [|b1 r1]; [discriminate|].
      destruct (cont b1) eqn:C1; [|discriminate].
      apply push_some in H as (s' & Hs' & ->).
      apply between_spec in C1. cbn [List.length] in Hlen.
      unfold bits. rewrite encode_cons, encode_point_2, !byte_of_to_N by lia.
      simpl. do 2 f_equal. apply IH; [lia | assumption]. }
    apply N.ltb_ge in E3.
    destruct (Byte.to_N b0 <? 240) eqn:E4.
    { apply N.ltb_lt in E4.
      destruct r0 as [|b1 [|b2 r2]]; try discriminate.
      destruct (second_ok (Byte.to_N b0) b1) eqn:C1; [|discriminate].
      destruct (cont b2) eqn:C2; [|discriminate]. simpl in H.
      apply push_some in H as (s' & Hs' & ->).
      apply between_spec in C1, C2. cbn [List.length] in Hlen.
      unfold bits. rewrite encode_cons, encode_point_3, !byte_of_to_N by (try lia; assumption).
      simpl. do 3 f_equal. apply IH; [lia | assumption]. }
    apply N.ltb_ge in E4.
    destruct (Byte.to_N b0 <? 245) eqn:E5; [|discriminate].
    apply N.ltb_lt in E5.
    destruct r0 as [|b1 [|b2 [|b3 r3]]]; try discriminate.
    destruct (second_ok (Byte.to_N b0) b1) eqn:C1; [|discriminate].
    destruct (cont b2) eqn:C2; [|discriminate].
    destruct (cont b3) eqn:C3; [|discriminate]. simpl in H.
    apply push_some in H as (s' & Hs' & ->).
    apply between_spec in C1, C2, C3. cbn [List.length] in Hlen.
    unfold bits. rewrite encode_cons, encode_point_4, !byte_of_to_N by (try lia; assumption).
    simpl. do 4 f_equal. apply IH; [lia | assumption].
Qed.

(** [res.decode().encode() == res]: a decoded text keeps every byte. *)
Lemma encode_decode res s : decode res = Some s -> encode s = res.
Proof. apply (encode_decode_bounded (List.length res)). lia. Qed.

Local Close Scope N_scope.

(** ** [save_message] *)

(** Whatever the outcome of the encoding, [save_message] keeps the records
    it was given and appends at least one. *)
Lemma save_message_extends messages res ts ty :
  exists added, added <> [] /\ save_message messages res ts ty = messages ++ added.
Proof.
  unfold save_message. destruct (render res ty) as [d|].
  - exists [mkMessage ts ty d; mkMessage ts ty d]. split; [discriminate|].
    now rewrite <- app_assoc.
  - eexists; split; [|reflexivity]. discriminate.
Qed.

(** Whenever the dict of line 32 can be built, the record is appended by
    the [try] body and once more by [finally]. *)
Lemma save_message_twice messages res ts ty d :
  render res ty = Some d ->
  save_message messages res ts ty
    = messages ++ [mkMessage ts ty d; mkMessage ts ty d].
Proof.
  intros H. unfold save_message. rewrite H. now rewrite <- app_assoc.
Qed.

(** The hex-typed families never take the fallback path. *)
Lemma save_message_hex_typed messages res ts ty :
  hex_typed ty = true ->
  exists added, added <> [] /\
    Forall (eq (mkMessage ts ty (hex res))) added /\
    save_message messages res ts ty = messages ++ added.
Proof.
  intros H. unfold save_message, render. rewrite H.
  exists [mkMessage ts ty (hex res); mkMessage ts ty (hex res)].
  split; [discriminate|]. split; [repeat constructor|].
  now rewrite <- app_assoc.
Qed.

(** Every record [save_message] appends stands for the bytes it was
    given, whichever way they were rendered. *)
Lemma render_payload res ts ty d :
  render res ty = Some d -> payload (mkMessage ts ty d) = Some res.
Proof.
  unfold render, payload. simpl. destruct (hex_typed ty).
  - intros H; injection H as <-. apply fromhex_hex.
  - intros H. now rewrite (encode_decode res d H).
Qed.

Lemma save_message_payload messages res ts ty :
  exists added, added <> [] /\
    Forall (fun m => payload m = Some res /\ timestamp m = ts) added /\
    save_message messages res ts ty = messages ++ added.
Proof.
  unfold save_message. destruct (render res ty) as [d|] eqn:E.
  - exists [mkMessage ts ty d; mkMessage ts ty d].
    pose proof (render_payload res ts ty d E) as Hp.
    split; [discriminate|]. split; [repeat constructor; assumption|].
    now rewrite <- app_assoc.
  - exists [mkMessage ts Unknown (hex res)].
    split; [discriminate|]. split; [|reflexivity].
    repeat constructor. unfold payload; simpl. apply fromhex_hex.
Qed.

(** ** Boundary determinism *)

(** C2 -- the code at the sentence ["$GPGGA,...\r\n"] fed as one run: the
    record list holds the NMEA record twice, the payload being the whole
    sentence with its line feed. *)
Theorem gpgga_recorded_twice (flat c : Z) :
  let m := mkMessage (c - flat) NMEA (map Byte.to_N GPGGA) in
  exists st,
    loop flat None init (map (feed c) GPGGA) = Running st /\
    messages st = [m; m] /\
    payload m = Some GPGGA /\
    queue st = [].
Proof.
  intros m.
  exists (mkState [m; m] [] false None (Some c) (Some c) [x0a] 0).
  repeat split; vm_compute; reflexivity.
Qed.

(** ** The CAN capture loop *)

Section CanBusFacts.

Variable Decoded : Type.
Variable message_ids : list Z.
Variable decode_message : Z -> bytes -> option Decoded.
Variable end_time : option Z.

Local Abbreviation iteration' := (can_iteration Decoded message_ids decode_message end_time).
Local Abbreviation loop' := (can_loop Decoded message_ids decode_message end_time).

Lemma not_in_spec (x : Z) (ids : list Z) : not_in x ids = true <-> ~ In x ids.
Proof.
  unfold not_in. rewrite negb_true_iff. split.
  - intros H Hin. assert (existsb (Z.eqb x) ids = true) as E.
    { apply existsb_exists. exists x. split; [assumption | apply Z.eqb_refl]. }
    congruence.
  - intros H. destruct (existsb (Z.eqb x) ids) eqn:E; [|reflexivity].
    apply existsb_exists in E as (y & Hy & Hxy).
    apply Z.eqb_eq in Hxy. subst. contradiction.
Qed.

Lemma can_iteration_unknown ms p m :
  recv p = Returned (Some m) ->
  ~ In (arbitration_id m) message_ids ->
  iteration' ms p = CanNext ms.
Proof.
  intros Hr Hn. unfold can_iteration. rewrite Hr. simpl.
  apply not_in_spec in Hn. now rewrite Hn.
Qed.

(** One iteration keeps the records it had and adds at most the record
    of the frame it received, whose identifier is then a known one. *)
Lemma can_iteration_records ms p :
  let ms' := match iteration' ms p with
             | CanNext x => x | CanBreak _ x => x end in
  ms' = ms \/
  exists m d, recv p = Returned (Some m) /\
              In (arbitration_id m) message_ids /\
              ms' = ms ++ [mkCanObject (can_timestamp m) (arbitration_id m) d].
Proof.
  unfold can_iteration.
  destruct (recv p) as [[m|]|]; simpl; auto.
  destruct (not_in (arbitration_id m) message_ids) eqn:E; auto.
  assert (In (arbitration_id m) message_ids) as Hin.
  { destruct (in_dec Z.eq_dec (arbitration_id m) message_ids) as [H|H]; auto.
    apply not_in_spec in H. congruence. }
  destruct (decode_message (arbitration_id m) (can_data m)) as [d|]; auto.
  assert (forall s : CanStep Decoded,
             s = CanNext (ms ++ [mkCanObject (can_timestamp m) (arbitration_id m) d]) \/
             (exists w, s = CanBreak w
                   (ms ++ [mkCanObject (can_timestamp m) (arbitration_id m) d])) ->
             match s with CanNext x => x | CanBreak _ x => x end
             = ms ++ [mkCanObject (can_timestamp m) (arbitration_id m) d]) as Hs.
  { intros s [-> | [w ->]]; reflexivity. }
  right. exists m, d. repeat split; auto. apply Hs.
  destruct (can_past_deadline end_time (can_t p)); [right; eauto|].
  destruct (can_TERMINATOR_FLAG p); [right; eauto | left; reflexivity].
Qed.

(** Every record of a run was built from a frame of a known identifier. *)
Lemma can_loop_records ps : forall ms,
  Forall (fun r => In (obj_arbitration_id r) message_ids) ms ->
  Forall (fun r => In (obj_arbitration_id r) message_ids)
         (can_records (loop' ms ps)).
Proof.
  induction ps as [|p ps IH]; intros ms Hms; simpl; [assumption|].
  pose proof (can_iteration_records ms p) as H. simpl in H.
  destruct (iteration' ms p) as [ms'|why ms']; simpl.
  - apply IH. destruct H as [-> | (m & d & _ & Hin & ->)]; [assumption|].
    apply Forall_app. split; [assumption|]. now repeat constructor.
  - destruct H as [-> | (m & d & _ & Hin & ->)]; [assumption|].
    apply Forall_app. split; [assumption|]. now repeat constructor.
Qed.

(** A frame of an unknown identifier leaves no trace: the records are
    those of the run without it. *)
Lemma can_loop_skip pre p post m : forall ms,
  recv p = Returned (Some m) ->
  ~ In (arbitration_id m) message_ids ->
  can_records (loop' ms (pre ++ p :: post)) = can_records (loop' ms (pre ++ post)).
Proof.
  induction pre as [|q pre IH]; intros ms Hr Hn; simpl.
  - now rewrite (can_iteration_unknown ms p m Hr Hn).
  - destruct (iteration' ms q) as [ms'|why ms']; simpl; [now apply IH | reflexivity].
Qed.

(** C9 -- unknown-identifier filtering.  A received frame whose
    arbitration identifier is not among the identifiers read from the
    database is skipped by its iteration, the record set of any run is
    the one of the same run without that frame, and no record of the
    output carries its identifier, whatever its payload. *)
Theorem unknown_identifier_filtered (pre post : list CanPoll) (p : CanPoll)
    (m : CanMessage) :
  recv p = Returned (Some m) ->
  ~ In (arbitration_id m) message_ids ->
  (forall ms, iteration' ms p = CanNext ms) /\
  can_records (read_CAN_bus Decoded message_ids decode_message end_time
                            (pre ++ p :: post))
    = can_records (read_CAN_bus Decoded message_ids decode_message end_time
                                (pre ++ post)) /\
  forall r,
    In r (can_records (read_CAN_bus Decoded message_ids decode_message
                                    end_time (pre ++ p :: post))) ->
    obj_arbitration_id r <> arbitration_id m.
Proof.
  intros Hr Hn. split; [|split].
  - intros ms. now apply can_iteration_unknown with m.
  - unfold read_CAN_bus. now apply can_loop_skip with m.
  - intros r Hin Heq. apply Hn. rewrite <- Heq.
    pose proof (can_loop_records (pre ++ p :: post) [] (Forall_nil _)) as H.
    rewrite Forall_forall in H. now apply H.
Qed.

Lemma can_loop_never_wait_expired ps : forall ms why ms' unread,
  loop' ms ps = CanStopped why ms' unread -> why <> WaitExpired.
Proof.
  induction ps as [|p ps IH]; intros ms why ms' unread; simpl; [discriminate|].
  destruct (iteration' ms p) as [ms1|why1 ms1] eqn:E; [apply IH|].
  intros H; injection H as <- <- <-.
  unfold can_iteration in E.
  destruct (recv p) as [[m|]|]; simpl in E; try (injection E as <- <-; discriminate).
  destruct (not_in (arbitration_id m) message_ids); [discriminate|].
  destruct (decode_message (arbitration_id m) (can_data m));
    [|injection E as <- <-; discriminate].
  destruct (can_past_deadline end_time (can_t p)); [injection E as <- <-; discriminate|].
  destruct (can_TERMINATOR_FLAG p); [injection E as <- <-; discriminate|discriminate].
Qed.

(** C10 -- a [recv] that returns [None].  The identifier test of line 99
    raises on it, so the loop ends through the exception handler with the
    records it had; no run ever ends through the "Expired waiting time"
    branch; and the [finally] clause writes the records only when there
    is at least one. *)
Theorem recv_timeout_raises (ms : list (CanObject Decoded)) (p : CanPoll)
    (ps : list CanPoll) :
  recv p = Returned None ->
  loop' ms (p :: ps) = CanStopped CanRaised ms ps /\
  (forall ms0 qs why ms' unread,
      loop' ms0 qs = CanStopped why ms' unread -> why <> WaitExpired) /\
  can_written Decoded (loop' ms (p :: ps))
    = match ms with [] => None | _ :: _ => Some ms end.
Proof.
  intros Hr.
  assert (loop' ms (p :: ps) = CanStopped CanRaised ms ps) as E.
  { simpl. unfold can_iteration. now rewrite Hr. }
  split; [exact E|]. split.
  - intros ms0 qs. apply can_loop_never_wait_expired.
  - rewrite E. simpl. destruct ms; reflexivity.
Qed.

End CanBusFacts.

Lemma unknown_identifier_filtered_witness :
  let p := mkCanPoll (Returned (Some (mkCanMessage 7 [x01] 30))) 3 false in
  let q := mkCanPoll (Returned (Some (mkCanMessage 496 [x02] 40))) 4 false in
  can_records
    (read_CAN_bus Z [496] (fun _ d => Some (len d)) None ([q] ++ p :: [q]))
  = can_records
    (read_CAN_bus Z [496] (fun _ d => Some (len d)) None ([q] ++ [q])).
Proof.
  intros p q.
  refine (proj1 (proj2 (unknown_identifier_filtered Z [496]
            (fun _ d => Some (len d)) None [q] [q] p
            (mkCanMessage 7 [x01] 30) eq_refl _))).
  simpl. intros [H | []]. discriminate H.
Defined.

Lemma recv_timeout_raises_witness :
  let r := mkCanObject 40 496 1 in
  can_loop Z [496] (fun _ d => Some (len d)) None [r]
           [mkCanPoll (Returned None) 5 false]
  = CanStopped CanRaised [r] [].
Proof.
  intros r.
  exact (proj1 (recv_timeout_raises Z [496] (fun _ d => Some (len d)) None [r]
                  (mkCanPoll (Returned None) 5 false) [] eq_refl)).
Defined.

(** ** The serial framer *)

Section FramerFacts.

Variable flat_time : Z.
Variable end_time : option Z.

Local Abbreviation dispatch' := (dispatch flat_time).
Local Abbreviation iteration' := (iteration flat_time end_time).
Local Abbreviation loop' := (loop flat_time end_time).

(** *** One iteration, by kind of read *)

Lemma iteration_error st p :
read p = SerialError -> iteration' st p = Break Raised st.
Proof. intros H. unfold iteration. now rewrite H. Qed.

Lemma iteration_byte st p b :
read p = OneByte b ->
iteration' st p =
  if len (queue st) <? 1 then
    Next (mkState (messages st) (queue st ++ [b]) (ubx_flag st)
                  (ubx_timestamp st) (nmea_timestamp st)
                  (unknown_timestamp st) [b] 0)
  else
    match dispatch' (set_null_cnt st 0) [b] (now p) with
    | None => Break Raised (set_null_cnt st 0)
    | Some st' =>
        if past_deadline end_time (t p) then Break Expired st'
        else if TERMINATOR_FLAG p then Break Interrupted st'
        else Next (set_previous_data st' [b])
    end.
Proof. intros H. unfold iteration. rewrite H. reflexivity. Qed.

Lemma iteration_nodata st p :
read p = NoData ->
iteration' st p =
  if NULL_CNT <? null_cnt st + 1 then
    Break Stalled (set_null_cnt st (null_cnt st + 1))
  else if len (queue st) <? 1 then
    Next (mkState (messages st) (queue st ++ []) (ubx_flag st)
                  (ubx_timestamp st) (nmea_timestamp st)
                  (unknown_timestamp st) [] (null_cnt st + 1))
  else
    match dispatch' (set_null_cnt st (null_cnt st + 1)) [] (now p) with
    | None => Break Raised (set_null_cnt st (null_cnt st + 1))
    | Some st' =>
        if past_deadline end_time (t p) then Break Expired st'
        else if TERMINATOR_FLAG p then Break Interrupted st'
        else Next (set_previous_data st' [])
    end.
Proof. intros H. unfold iteration. rewrite H. reflexivity. Qed.

(** A window of fewer than two bytes matches nothing. *)
Lemma short_window (w : bytes) :
(List.length w <= 1)%nat -> boundary w = false.
Proof.
destruct w as [|a [|b w]]; simpl; intros H; try reflexivity; try lia.
unfold boundary. simpl. now rewrite !andb_false_r.
Qed.

Lemma boundary_false (w : bytes) :
boundary w = false ->
bytes_eqb w NMEA_START = false /\ bytes_eqb w CRLF = false /\
bytes_eqb w UBX_SYNC = false.
Proof.
unfold boundary. intros H.
apply orb_false_iff in H as [H H3]. apply orb_false_iff in H as [H1 H2]. auto.
Qed.

(** Off a boundary, [dispatch] appends the data to the queue. *)
Lemma dispatch_other st data now0 :
boundary (previous_data st ++ data) = false ->
dispatch' st data now0 =
  Some (mkState (messages st) (queue st ++ data) (ubx_flag st)
                (ubx_timestamp st) (nmea_timestamp st)
                (unknown_timestamp st) (previous_data st) (null_cnt st)).
Proof.
intros H. apply boundary_false in H as (H1 & H2 & H3).
unfold dispatch. now rewrite H1, H2, H3.
Qed.

Lemma dispatch_calls_other st data :
boundary (previous_data st ++ data) = false ->
dispatch_calls flat_time st data = [].
Proof.
intros H. apply boundary_false in H as (H1 & H2 & H3).
unfold dispatch_calls. now rewrite H1, H2, H3.
Qed.

(** *** Empty reads and the stall counter *)

(** An empty read below the threshold changes neither the records nor the
    queue; it adds one to the counter. *)
Lemma iteration_nodata_below st p :
  read p = NoData ->
  (List.length (previous_data st) <= 1)%nat ->
  null_cnt st + 1 <= NULL_CNT ->
  exists st',
    messages st' = messages st /\ queue st' = queue st /\
    null_cnt st' = null_cnt st + 1 /\
    (List.length (previous_data st') <= 1)%nat /\
    (iteration' st p = Next st' \/
     (calm end_time p = false /\ queue st <> [] /\
      (iteration' st p = Break Expired st' \/
       iteration' st p = Break Interrupted st'))).
Proof.
  intros Hr Hp Hc. rewrite (iteration_nodata st p Hr).
  replace (NULL_CNT <? null_cnt st + 1) with false by (symmetry; apply Z.ltb_ge; lia).
  destruct (len (queue st) <? 1) eqn:Elen.
  - exists (mkState (messages st) (queue st ++ []) (ubx_flag st)
                    (ubx_timestamp st) (nmea_timestamp st)
                    (unknown_timestamp st) [] (null_cnt st + 1)).
    simpl. rewrite app_nil_r. auto 10.
  - rewrite dispatch_other
      by (simpl; rewrite app_nil_r; now apply short_window).
    set (st1 := mkState (messages st)
                  (queue (set_null_cnt st (null_cnt st + 1)) ++ [])
                  (ubx_flag st) (ubx_timestamp st) (nmea_timestamp st)
                  (unknown_timestamp st) (previous_data st) (null_cnt st + 1)).
    assert (queue st1 = queue st) as Hq by (simpl; apply app_nil_r).
    assert (queue st <> []) as Hne.
    { intros C. rewrite C in Elen. discriminate. }
    unfold calm.
    destruct (past_deadline end_time (t p)); [|destruct (TERMINATOR_FLAG p)].
    + exists st1. repeat split; auto.
    + exists st1. repeat split; auto.
    + exists (set_previous_data st1 []). repeat split; simpl; auto using app_nil_r.
Qed.

Lemma no_stall_below ps : forall st,
  all_empty ps ->
  (List.length (previous_data st) <= 1)%nat ->
  null_cnt st + len ps <= NULL_CNT ->
  forall st' unread, loop' st ps <> Stopped Stalled st' unread.
Proof.
  induction ps as [|p ps IH]; intros st Ha Hp Hc st' unread; simpl; [discriminate|].
  inversion Ha as [|? ? Hr Ha']; subst.
  unfold len in Hc; simpl List.length in Hc.
  destruct (iteration_nodata_below st p Hr Hp ltac:(lia))
    as (st1 & _ & _ & Hn & Hp1 & [E | (_ & _ & [E | E])]); rewrite E; try discriminate.
  apply IH; auto. unfold len. lia.
Qed.

Lemma stall_above ps : forall st,
  all_empty ps ->
  (List.length (previous_data st) <= 1)%nat ->
  null_cnt st <= NULL_CNT ->
  null_cnt st + len ps = NULL_CNT + 1 ->
  exists why st' unread,
    loop' st ps = Stopped why st' unread /\
    messages st' = messages st /\ queue st' = queue st /\
    why <> Raised /\
    (forallb (calm end_time) ps = true \/ queue st = [] ->
     why = Stalled /\ unread = []).
Proof.
  induction ps as [|p ps IH]; intros st Ha Hp Hle Hc.
  - unfold len, NULL_CNT in *; simpl in Hc. lia.
  - inversion Ha as [|? ? Hr Ha']; subst.
    unfold len in Hc; simpl List.length in Hc.
    destruct (Z.eq_dec (null_cnt st) NULL_CNT) as [Hlast | Hmore].
    + (* this read is the one that passes the threshold *)
      simpl. rewrite (iteration_nodata st p Hr).
      replace (NULL_CNT <? null_cnt st + 1) with true by (symmetry; apply Z.ltb_lt; lia).
      exists Stalled, (set_null_cnt st (null_cnt st + 1)), ps.
      split; [reflexivity|]. split; [reflexivity|]. split; [reflexivity|].
      split; [discriminate|]. intros _. split; [reflexivity|].
      destruct ps; [reflexivity | simpl List.length in Hc; lia].
    + destruct (iteration_nodata_below st p Hr Hp ltac:(lia))
        as (st1 & Hm & Hq & Hn & Hp1 & [E | (Hcalm & Hne & [E | E])]);
        simpl; rewrite E.
      * destruct (IH st1 Ha' Hp1 ltac:(lia) ltac:(unfold len; lia))
          as (why & st' & unread & El & Hm' & Hq' & Hnr & Hwhy).
        exists why, st', unread.
        split; [exact El|]. split; [congruence|]. split; [congruence|].
        split; [exact Hnr|].
        intros [Hall | Hempty]; apply Hwhy.
        -- simpl in Hall. apply andb_true_iff in Hall as [_ Hall]. now left.
        -- right. congruence.
      * exists Expired, st1, ps.
        split; [reflexivity|]. split; [exact Hm|]. split; [exact Hq|].
        split; [discriminate|].
        intros [Hall | Hempty]; [|contradiction].
        simpl in Hall. rewrite Hcalm in Hall. discriminate.
      * exists Interrupted, st1, ps.
        split; [reflexivity|]. split; [exact Hm|]. split; [exact Hq|].
        split; [discriminate|].
        intros [Hall | Hempty]; [|contradiction].
        simpl in Hall. rewrite Hcalm in Hall. discriminate.
Qed.

(** A read that delivers a byte leaves the counter at zero, however the
    iteration ends. *)
Lemma byte_resets_null_cnt st p b :
  read p = OneByte b ->
  null_cnt (match iteration' st p with Next st' => st' | Break _ st' => st' end) = 0.
Proof.
  intros Hr. rewrite (iteration_byte st p b Hr).
  destruct (len (queue st) <? 1); [reflexivity|].
  destruct (dispatch' (set_null_cnt st 0) [b] (now p)) as [st'|] eqn:E; [|reflexivity].
  assert (null_cnt st' = 0) as Hn.
  { unfold dispatch in E.
    repeat match type of E with
           | context [if ?c then _ else _] => destruct c
           | context [match ?c with Some _ => _ | None => _ end] => destruct c
           end; inversion E; reflexivity. }
  destruct (past_deadline end_time (t p)); [exact Hn|].
  destruct (TERMINATOR_FLAG p); exact Hn.
Qed.

(** From the start, [NULL_CNT + 1] empty reads end in the stall stop
    whatever the stop requests, the queue being empty all along. *)
Lemma stall_from_start ps :
  all_empty ps -> len ps = NULL_CNT + 1 ->
  exists st', loop' init ps = Stopped Stalled st' [] /\ messages st' = [].
Proof.
  intros Ha Hl.
  destruct (stall_above ps init Ha) as (why & st' & unread & E & Hm & _ & _ & Hw).
  - simpl. lia.
  - simpl. unfold NULL_CNT. lia.
  - rewrite Hl. reflexivity.
  - destruct (Hw (or_intror eq_refl)) as [-> ->]. exists st'. auto.
Qed.

(** The read that takes the counter past the threshold stops the loop
    with the stall message whatever else the poll says: the test of line
    159 comes before everything but the read. *)
Lemma stall_at_threshold st p :
  read p = NoData -> null_cnt st = NULL_CNT ->
  iteration' st p = Break Stalled (set_null_cnt st (NULL_CNT + 1)).
Proof.
  intros Hr Hn. rewrite (iteration_nodata st p Hr), Hn. reflexivity.
Qed.

Lemma removelast_cons {A} (a : A) (l : list A) :
  l <> [] -> removelast (a :: l) = a :: removelast l.
Proof. destruct l; [contradiction | reflexivity]. Qed.

(** The run of empty reads that takes the counter to [NULL_CNT + 1]:
    either an earlier read of the run was stopped by a stop request, or
    the last read is made and stops the loop with the stall message. *)
Lemma stall_exact ps : forall st,
  all_empty ps ->
  (List.length (previous_data st) <= 1)%nat ->
  null_cnt st <= NULL_CNT ->
  null_cnt st + len ps = NULL_CNT + 1 ->
  exists why st' unread,
    loop' st ps = Stopped why st' unread /\
    messages st' = messages st /\
    why <> Raised /\
    (unread = [] <-> why = Stalled) /\
    (why = Stalled -> null_cnt st' = NULL_CNT + 1) /\
    (forallb (calm end_time) (removelast ps) = true \/ queue st = [] ->
     why = Stalled /\ unread = []).
Proof.
  induction ps as [|p ps IH]; intros st Ha Hp Hle Hc.
  - unfold len, NULL_CNT in *; simpl in Hc. lia.
  - inversion Ha as [|? ? Hr Ha']; subst.
    unfold len in Hc; cbn [List.length] in Hc.
    destruct (Z.eq_dec (null_cnt st) NULL_CNT) as [Hlast | Hmore].
    + assert (ps = []) as -> by (destruct ps; [reflexivity | cbn [List.length] in Hc; lia]).
      cbn [loop]. rewrite (stall_at_threshold st p Hr Hlast).
      exists Stalled, (set_null_cnt st (NULL_CNT + 1)), [].
      repeat split; try reflexivity; discriminate.
    + assert (ps <> []) as Hps
          by (intros ->; cbn [List.length] in Hc; lia).
      rewrite (removelast_cons p ps Hps).
      destruct (iteration_nodata_below st p Hr Hp ltac:(lia))
        as (st1 & Hm & Hq & Hn & Hp1 & [E | (Hcalm & Hne & [E | E])]);
        cbn [loop]; rewrite E.
      * destruct (IH st1 Ha' Hp1 ltac:(lia) ltac:(unfold len; lia))
          as (why & st' & unread & El & Hm' & Hnr & Hiff & Hcnt & Hwhy).
        exists why, st', unread.
        split; [exact El|]. split; [congruence|]. split; [exact Hnr|].
        split; [exact Hiff|]. split; [exact Hcnt|].
        intros [Hall | Hempty]; apply Hwhy.
        -- cbn [forallb] in Hall. apply andb_true_iff in Hall as [_ Hall]. now left.
        -- right. congruence.
      * exists Expired, st1, ps.
        split; [reflexivity|]. split; [exact Hm|]. split; [discriminate|].
        split; [split; [contradiction | discriminate]|].
        split; [discriminate|].
        intros [Hall | Hempty]; [|contradiction].
        cbn [forallb] in Hall. rewrite Hcalm in Hall. discriminate.
      * exists Interrupted, st1, ps.
        split; [reflexivity|]. split; [exact Hm|]. split; [discriminate|].
        split; [split; [contradiction | discriminate]|].
        split; [discriminate|].
        intros [Hall | Hempty]; [|contradiction].
        cbn [forallb] in Hall. rewrite Hcalm in Hall. discriminate.
Qed.

(** C8 -- stall threshold.  From a state whose counter of consecutive
    empty reads is [null_cnt st] (zero at the start and after every read
    that delivers a byte): a run of empty reads that does not take the
    counter past [NULL_CNT = 500000] never ends in the stall stop; the
    read that takes it to [NULL_CNT + 1], once made, always stops the
    loop with the stall message, whatever the deadline, the termination
    flag and the queue are; so the run of empty reads that leads to it
    has stopped the loop, with the records as they were and without an
    exception, and the stop is the stall exactly when that last read was
    made, which it is unless a stop request ended the loop at an earlier
    read of the run; and a read that delivers a byte sets the counter
    back to zero. *)
Theorem stall_threshold (st : State) (ps : list Poll) :
  all_empty ps ->
  (List.length (previous_data st) <= 1)%nat ->
  0 <= null_cnt st <= NULL_CNT ->
  (null_cnt st + len ps <= NULL_CNT ->
   forall st' unread, loop' st ps <> Stopped Stalled st' unread) /\
  (forall p, read p = NoData -> null_cnt st = NULL_CNT ->
     forall rest,
       loop' st (p :: rest)
         = Stopped Stalled (set_null_cnt st (NULL_CNT + 1)) rest) /\
  (null_cnt st + len ps = NULL_CNT + 1 ->
   exists why st' unread,
     loop' st ps = Stopped why st' unread /\
     messages st' = messages st /\
     why <> Raised /\
     (unread = [] <-> why = Stalled) /\
     (why = Stalled -> null_cnt st' = NULL_CNT + 1) /\
     (forallb (calm end_time) (removelast ps) = true \/ queue st = [] ->
      why = Stalled /\ unread = [])) /\
  (forall p b, read p = OneByte b ->
     null_cnt (match iteration' st p with
               | Next st' => st' | Break _ st' => st' end) = 0).
Proof.
  intros Ha Hp [_ Hle]. split; [|split; [|split]].
  - intros Hc. now apply no_stall_below.
  - intros p Hr Hn rest. cbn [loop].
    now rewrite (stall_at_threshold st p Hr Hn).
  - intros Hc. now apply stall_exact.
  - intros p b. apply byte_resets_null_cnt.
Qed.

End FramerFacts.

Lemma stall_threshold_witness :
  let st := mkState [] [x41] false None None None [] (NULL_CNT - 1) in
  let ps := [mkPoll NoData 1 1 false; mkPoll NoData 2 2 true] in
  (loop 0 None st ps = Stopped Stalled (set_null_cnt st (NULL_CNT + 1)) []) /\
  (forall rest,
      loop 0 None (set_null_cnt st NULL_CNT) (mkPoll NoData 2 2 true :: rest)
        = Stopped Stalled
            (set_null_cnt (set_null_cnt st NULL_CNT) (NULL_CNT + 1)) rest).
Proof.
  intros st ps. split.
  - destruct (proj1 (proj2 (proj2 (stall_threshold 0 None st ps
                 ltac:(repeat constructor) ltac:(simpl; lia)
                 ltac:(vm_compute; split; discriminate))))
                 eq_refl)
      as (why & st' & unread & E & _ & _ & _ & _ & Hw).
    destruct (Hw (or_introl eq_refl)) as [-> ->].
    rewrite E. f_equal.
    vm_compute in E. injection E as <-. reflexivity.
  - intros rest.
    exact (proj1 (proj2 (stall_threshold 0 None (set_null_cnt st NULL_CNT) []
                   ltac:(constructor) ltac:(simpl; lia)
                   ltac:(vm_compute; split; discriminate)))
                 (mkPoll NoData 2 2 true) eq_refl eq_refl rest).
Defined.

Section FramerRuns.

Variable flat_time : Z.
Variable end_time : option Z.

Local Abbreviation dispatch' := (dispatch flat_time).
Local Abbreviation iteration' := (iteration flat_time end_time).
Local Abbreviation loop' := (loop flat_time end_time).
Local Abbreviation calls' := (calls flat_time).
Local Abbreviation log' := (log flat_time end_time).

(** *** Windows *)

(** A window equal to two given bytes is the previous byte followed by
    the byte just read. *)
Lemma window_split (prev : bytes) (r : Read) (a b : byte) :
  (List.length prev <= 1)%nat ->
  bytes_eqb (prev ++ data_of r) [a; b] = true ->
  prev = [a] /\ data_of r = [b].
Proof.
  intros Hlen H. apply bytes_eqb_eq in H.
  destruct prev as [|x [|y l]]; simpl in Hlen; try lia;
    destruct r; simpl in *; try discriminate.
  injection H as -> ->. auto.
Qed.

Lemma removelast_snoc {A} (q : list A) (a : A) : removelast (q ++ [a]) = q.
Proof. apply removelast_last. Qed.

Lemma len_snoc_short {A} (q : list A) (a : A) :
  (0 <? len (q ++ [a]) - 1) = false -> q = [].
Proof.
  intros H. apply Z.ltb_ge in H. unfold len in H. rewrite length_app in H.
  destruct q as [|x q]; [reflexivity|]. cbn [List.length] in H. lia.
Qed.

(** *** The calls of [dispatch] are the calls it makes *)

Lemma close_pending_replay st ms :
  close_pending flat_time st = Some ms ->
  ms = replay (pending_call flat_time st) (messages st).
Proof.
  unfold close_pending, pending_call.
  destruct (ubx_flag st).
  - destruct (since flat_time (ubx_timestamp st)); simpl; congruence.
  - destruct (0 <? len (queue st) - 1).
    + destruct (since flat_time (unknown_timestamp st)); simpl; congruence.
    + simpl; congruence.
Qed.

Lemma dispatch_replay st data now0 st' :
  dispatch' st data now0 = Some st' ->
  messages st' = replay (dispatch_calls flat_time st data) (messages st).
Proof.
  unfold dispatch, dispatch_calls.
  destruct (bytes_eqb (previous_data st ++ data) NMEA_START).
  { destruct (close_pending flat_time st) as [ms|] eqn:E; [|discriminate].
    intros H; injection H as <-. simpl. now apply close_pending_replay. }
  destruct (bytes_eqb (previous_data st ++ data) CRLF).
  { destruct (ubx_flag st); simpl.
    - destruct (since flat_time (ubx_timestamp st)); [|discriminate].
      intros H; injection H as <-. reflexivity.
    - destruct (since flat_time (nmea_timestamp st)); [|discriminate].
      intros H; injection H as <-. reflexivity. }
  destruct (bytes_eqb (previous_data st ++ data) UBX_SYNC).
  { destruct (close_pending flat_time st) as [ms|] eqn:E; [|discriminate].
    intros H; injection H as <-. simpl. now apply close_pending_replay. }
  intros H; injection H as <-. reflexivity.
Qed.

(** *** Every byte is in a call's payload, dropped with a binary line
    end, or still in the queue *)

Lemma pending_call_cover st q a ms :
  close_pending flat_time st = Some ms ->
  queue st = q ++ [a] ->
  flat_map covered (pending_call flat_time st) = q.
Proof.
  unfold close_pending, pending_call. intros H Hq. rewrite Hq in *.
  rewrite removelast_snoc in *.
  destruct (ubx_flag st).
  - destruct (since flat_time (ubx_timestamp st)); [|discriminate].
    simpl. unfold covered. simpl. now rewrite !app_nil_r.
  - destruct (0 <? len (q ++ [a]) - 1) eqn:E.
    + destruct (since flat_time (unknown_timestamp st)); [|discriminate].
      simpl. unfold covered. simpl. now rewrite !app_nil_r.
    + apply len_snoc_short in E. now subst.
Qed.

Lemma dispatch_cover st r now0 st' q :
  dispatch' st (data_of r) now0 = Some st' ->
  (List.length (previous_data st) <= 1)%nat ->
  queue st = q ++ previous_data st ->
  queue st ++ data_of r
    = flat_map covered (dispatch_calls flat_time st (data_of r)) ++ queue st'.
Proof.
  intros H Hlen Hq. unfold dispatch, dispatch_calls in *.
  destruct (bytes_eqb (previous_data st ++ data_of r) NMEA_START) eqn:E1.
  { apply window_split in E1 as [Hp Hd]; [|assumption].
    destruct (close_pending flat_time st) as [ms|] eqn:E; [|discriminate].
    injection H as <-. simpl. rewrite Hp in Hq.
    rewrite (pending_call_cover st q x24 ms E Hq), Hq, Hp, Hd.
    now rewrite <- app_assoc. }
  destruct (bytes_eqb (previous_data st ++ data_of r) CRLF) eqn:E2.
  { apply window_split in E2 as [Hp Hd]; [|assumption].
    rewrite Hp in Hq. rewrite Hd.
    destruct (ubx_flag st); simpl in *.
    - destruct (since flat_time (ubx_timestamp st)); [|discriminate].
      injection H as <-. simpl. unfold covered; simpl.
      rewrite Hq, removelast_snoc, !app_nil_r. now rewrite <- app_assoc.
    - destruct (since flat_time (nmea_timestamp st)); [|discriminate].
      injection H as <-. simpl. unfold covered; simpl.
      now rewrite !app_nil_r. }
  destruct (bytes_eqb (previous_data st ++ data_of r) UBX_SYNC) eqn:E3.
  { apply window_split in E3 as [Hp Hd]; [|assumption].
    destruct (close_pending flat_time st) as [ms|] eqn:E; [|discriminate].
    injection H as <-. simpl. rewrite Hp in Hq.
    rewrite (pending_call_cover st q xb5 ms E Hq), Hq, Hp, Hd.
    now rewrite <- app_assoc. }
  injection H as <-. reflexivity.
Qed.

(** *** The invariant *)

Lemma Inv_init : Inv init.
Proof. split; simpl; auto. Qed.

Lemma dispatch_queue_tail st r now0 st' :
  dispatch' st (data_of r) now0 = Some st' ->
  (List.length (previous_data st) <= 1)%nat ->
  queue st' = [] \/ exists q, queue st' = q ++ data_of r.
Proof.
  intros H Hlen. unfold dispatch in H.
  destruct (bytes_eqb (previous_data st ++ data_of r) NMEA_START) eqn:E1.
  { apply window_split in E1 as [Hp Hd]; [|assumption].
    destruct (close_pending flat_time st); [|discriminate].
    injection H as <-. simpl. right. exists (previous_data st). reflexivity. }
  destruct (bytes_eqb (previous_data st ++ data_of r) CRLF) eqn:E2.
  { destruct (negb (ubx_flag st)).
    - destruct (since flat_time (nmea_timestamp st)); [|discriminate].
      injection H as <-. now left.
    - destruct (since flat_time (ubx_timestamp st)); [|discriminate].
      injection H as <-. now left. }
  destruct (bytes_eqb (previous_data st ++ data_of r) UBX_SYNC) eqn:E3.
  { destruct (close_pending flat_time st); [|discriminate].
    injection H as <-. simpl. right. exists (previous_data st). reflexivity. }
  injection H as <-. simpl. right. now exists (queue st).
Qed.

(** What one iteration does, whatever the read: the general shape behind
    [iteration_byte] and [iteration_nodata]. *)
Lemma iteration_shape st p :
  read p <> SerialError ->
  let data := data_of (read p) in
  let st0 := set_null_cnt st (match data with [] => null_cnt st + 1 | _ => 0 end) in
  iteration' st p =
    if NULL_CNT <? null_cnt st0 then Break Stalled st0
    else if len (queue st) <? 1 then
      Next (mkState (messages st) (queue st ++ data) (ubx_flag st)
                    (ubx_timestamp st) (nmea_timestamp st)
                    (unknown_timestamp st) data (null_cnt st0))
    else
      match dispatch' st0 data (now p) with
      | None => Break Raised st0
      | Some st' =>
          if past_deadline end_time (t p) then Break Expired st'
          else if TERMINATOR_FLAG p then Break Interrupted st'
          else Next (set_previous_data st' data)
      end.
Proof.
  intros H. unfold iteration. destruct (read p); try reflexivity. contradiction.
Qed.

Lemma len_lt_1 {A} (l : list A) : (len l <? 1) = true <-> l = [].
Proof.
  unfold len. rewrite Z.ltb_lt. destruct l; simpl List.length; split;
    try reflexivity; try discriminate; lia.
Qed.

Lemma iteration_Inv st p st' :
  Inv st -> iteration' st p = Next st' -> Inv st'.
Proof.
  intros [Hlen Hq] H.
  destruct (read p) eqn:Hr;
    try (rewrite iteration_error in H by assumption; discriminate).
  all: rewrite iteration_shape in H by congruence; rewrite Hr in H; cbn zeta in H.
  all: destruct (NULL_CNT <? _); [discriminate|].
  all: destruct (len (queue st) <? 1) eqn:Elen.
  all: try (apply len_lt_1 in Elen; injection H as <-; split; simpl;
            [lia | rewrite Elen; simpl; first [now left | right; now exists []]]).
  all: match type of H with
       | context [dispatch' ?s ?d ?n] =>
           destruct (dispatch' s d n) as [st1|] eqn:E; [|discriminate]
       end.
  all: destruct (past_deadline end_time (t p)); [discriminate|].
  all: destruct (TERMINATOR_FLAG p); [discriminate|].
  all: injection H as <-; split; simpl; [lia|].
  - apply (dispatch_queue_tail _ NoData) in E; [|exact Hlen].
    destruct E as [E | [q E]]; [now left | right; exists q; exact E].
  - apply (dispatch_queue_tail _ (OneByte b)) in E; [|exact Hlen].
    destruct E as [E | [q E]]; [now left | right; exists q; exact E].
Qed.

Lemma dispatch_null_cnt st data now0 st' :
  dispatch' st data now0 = Some st' -> null_cnt st' = null_cnt st.
Proof.
  unfold dispatch. intros H.
  repeat match type of H with
         | context [if ?c then _ else _] => destruct c
         | context [match ?c with Some _ => _ | None => _ end] => destruct c
         end; inversion H; reflexivity.
Qed.

Lemma iteration_null_cnt st p st' :
  0 <= null_cnt st -> iteration' st p = Next st' ->
  0 <= null_cnt st' <= NULL_CNT.
Proof.
  intros H0 H.
  destruct (read p) eqn:Hr;
    try (rewrite iteration_error in H by assumption; discriminate).
  all: rewrite iteration_shape in H by congruence; rewrite Hr in H; cbn zeta in H.
  all: destruct (NULL_CNT <? _) eqn:En; [discriminate|]; apply Z.ltb_ge in En.
  all: destruct (len (queue st) <? 1);
    [injection H as <-; simpl in *; unfold NULL_CNT in *; lia|].
  all: match type of H with
       | context [dispatch' ?s ?d ?n] =>
           destruct (dispatch' s d n) as [st1|] eqn:E; [|discriminate]
       end.
  all: apply dispatch_null_cnt in E.
  all: destruct (past_deadline end_time (t p)); [discriminate|].
  all: destruct (TERMINATOR_FLAG p); [discriminate|].
  all: injection H as <-; simpl in *; unfold NULL_CNT in *; lia.
Qed.

(** Every state the loop is in after some reads satisfies the invariant,
    and its counter of empty reads is within the threshold. *)
Lemma running_state ps : forall st st',
  Inv st -> 0 <= null_cnt st <= NULL_CNT ->
  loop' st ps = Running st' ->
  Inv st' /\ 0 <= null_cnt st' <= NULL_CNT.
Proof.
  induction ps as [|p ps IH]; intros st st' Hi Hn; cbn [loop].
  - intros H; injection H as <-. auto.
  - destruct (iteration' st p) as [st1|why st1] eqn:E; [|discriminate].
    apply IH.
    + now apply (iteration_Inv st p).
    + apply (iteration_null_cnt st p); [lia | exact E].
Qed.

(** *** One iteration accounts for the byte it reads *)

Lemma iteration_cover st p :
  Inv st ->
  step_raised (iteration' st p) = false ->
  queue st ++ data_of (read p)
    = flat_map covered
        (match iteration' st p with
         | Break Stalled _ => []
         | _ => calls' st p
         end)
      ++ queue (step_state (iteration' st p)).
Proof.
  intros [Hlen Hq] Hnr.
  destruct (read p) eqn:Hr;
    try (rewrite iteration_error in Hnr by assumption; discriminate).
  - (* empty read *)
    unfold calls. rewrite iteration_nodata in * by assumption. rewrite Hr.
    destruct (NULL_CNT <? null_cnt st + 1); [simpl; now rewrite app_nil_r|].
    destruct (len (queue st) <? 1) eqn:Elen; [reflexivity|].
    assert (queue st <> []) as Hne
        by (intros C; apply len_lt_1 in C; congruence).
    destruct Hq as [Hq | [q Hq]]; [contradiction|].
    destruct (dispatch' _ [] (now p)) as [st1|] eqn:E; [|discriminate].
    apply (dispatch_cover _ NoData _ _ q) in E; [|exact Hlen|exact Hq].
    simpl in E. unfold dispatch_calls in *. simpl in *.
    destruct (past_deadline end_time (t p)); [|destruct (TERMINATOR_FLAG p)];
      exact E.
  - (* one byte *)
    unfold calls. rewrite (iteration_byte flat_time end_time st p b) in * by assumption. rewrite Hr.
    destruct (len (queue st) <? 1) eqn:Elen; [reflexivity|].
    assert (queue st <> []) as Hne
        by (intros C; apply len_lt_1 in C; congruence).
    destruct Hq as [Hq | [q Hq]]; [contradiction|].
    destruct (dispatch' _ [b] (now p)) as [st1|] eqn:E; [|discriminate].
    apply (dispatch_cover _ (OneByte b) _ _ q) in E; [|exact Hlen|exact Hq].
    simpl in E. unfold dispatch_calls in *. simpl in *.
    destruct (past_deadline end_time (t p)); [|destruct (TERMINATOR_FLAG p)];
      exact E.
Qed.

Lemma iteration_replay st p :
  messages (step_state (iteration' st p))
    = replay (match iteration' st p with
              | Break Raised _ | Break Stalled _ => []
              | _ => calls' st p
              end) (messages st).
Proof.
  destruct (read p) eqn:Hr;
    try (rewrite iteration_error by assumption; reflexivity).
  all: unfold calls; rewrite iteration_shape by congruence;
    rewrite Hr; cbn zeta.
  all: destruct (NULL_CNT <? _); [reflexivity|].
  all: destruct (len (queue st) <? 1) eqn:Elen; [reflexivity|].
  all: match goal with
       | |- context [dispatch' ?s ?d ?n] =>
           destruct (dispatch' s d n) as [st1|] eqn:E; [|reflexivity]
       end.
  all: apply dispatch_replay in E; unfold dispatch_calls in *; simpl in *.
  all: destruct (past_deadline end_time (t p)); [|destruct (TERMINATOR_FLAG p)];
      exact E.
Qed.

(** *** Runs *)

Lemma loop_app ps1 ps2 : forall st,
  loop' st (ps1 ++ ps2) =
    match loop' st ps1 with
    | Running st' => loop' st' ps2
    | Stopped why st' unread => Stopped why st' (unread ++ ps2)
    end.
Proof.
  induction ps1 as [|p ps1 IH]; intros st; simpl; [reflexivity|].
  destruct (iteration' st p); [apply IH | reflexivity].
Qed.

Lemma replay_app cs1 cs2 ms :
  replay (cs1 ++ cs2) ms = replay cs2 (replay cs1 ms).
Proof. apply fold_left_app. Qed.

Lemma replay_extends cs : forall ms, exists more, replay cs ms = ms ++ more.
Proof.
  induction cs as [|c cs IH]; intros ms; simpl.
  - exists []. now rewrite app_nil_r.
  - destruct (save_message_extends ms (call_res c) (call_timestamp c) (call_type c))
      as (added & _ & ->).
    destruct (IH (ms ++ added)) as (more & ->).
    exists (added ++ more). now rewrite app_assoc.
Qed.

Lemma replay_records cs : forall ms,
  exists rs, replay cs ms = ms ++ rs /\ records_of cs rs.
Proof.
  induction cs as [|c cs IH]; intros ms; simpl.
  - exists []. split; [now rewrite app_nil_r | constructor].
  - destruct (save_message_payload ms (call_res c) (call_timestamp c) (call_type c))
      as (added & Hne & Hall & ->).
    destruct (IH (ms ++ added)) as (rs & -> & Hrs).
    exists (added ++ rs). split; [now rewrite app_assoc|].
    now constructor.
Qed.

(** The records of a run are those its [save_message] calls produce. *)
Lemma loop_replay ps : forall st,
  messages (final (loop' st ps)) = replay (log' st ps) (messages st).
Proof.
  induction ps as [|p ps IH]; intros st; simpl; [reflexivity|].
  pose proof (iteration_replay st p) as H.
  destruct (iteration' st p) as [st1|why st1]; simpl in *.
  - now rewrite replay_app, <- H, IH.
  - destruct why; exact H.
Qed.

Lemma delivered_cons p ps :
  delivered (p :: ps) = data_of (read p) ++ delivered ps.
Proof. reflexivity. Qed.

(** The bytes read by a run that has not raised are, in order, those its
    calls account for followed by those still in the queue. *)
Lemma loop_cover ps : forall st,
  Inv st ->
  raised (loop' st ps) = false ->
  queue st ++ delivered (polled flat_time end_time st ps)
    = flat_map covered (log' st ps) ++ queue (final (loop' st ps)).
Proof.
  induction ps as [|p ps IH]; intros st Hi Hnr.
  - unfold delivered. simpl. now rewrite app_nil_r.
  - pose proof (iteration_cover st p Hi) as H.
    pose proof (iteration_Inv st p) as HI.
    cbn [loop log polled] in *. rewrite delivered_cons.
    destruct (iteration' st p) as [st1|why st1]; cbn [step_state step_raised] in *.
    + rewrite app_assoc, H by reflexivity.
      rewrite flat_map_app, <- !app_assoc. f_equal.
      apply IH; auto.
    + unfold delivered at 1; cbn [flat_map]. rewrite app_nil_r.
      destruct why; try discriminate; now apply H.
Qed.

Lemma polled_unread ps : forall st why st' unread,
  loop' st ps = Stopped why st' unread ->
  ps = polled flat_time end_time st ps ++ unread.
Proof.
  induction ps as [|p ps IH]; intros st why st' unread; simpl; [discriminate|].
  destruct (iteration' st p) as [st1|why1 st1].
  - intros H. f_equal. eapply IH; eauto.
  - intros H; injection H as <- <- <-. reflexivity.
Qed.

Lemma polled_running ps : forall st st',
  loop' st ps = Running st' -> polled flat_time end_time st ps = ps.
Proof.
  induction ps as [|p ps IH]; intros st st'; simpl; [reflexivity|].
  destruct (iteration' st p) as [st1|why1 st1]; [|discriminate].
  intros H. f_equal. eapply IH; eauto.
Qed.

(** C1 -- total coverage, as the code has it.  For every script of reads
    that each deliver a byte, as long as the run has not ended in an
    exception: the bytes read are, in order and each exactly once, the
    payloads handed to [save_message] -- a binary payload closed by a line
    end being followed by the two bytes of that window, which enter no
    payload -- followed by the bytes still pending in the queue; the
    records are exactly what those calls append; and what a stop writes to
    the file is those records, the pending bytes being in none of them. *)
Theorem coverage_of_calls (ps : list Poll) :
  Forall (fun p => exists b, read p = OneByte b) ps ->
  raised (loop' init ps) = false ->
  delivered (polled flat_time end_time init ps)
    = flat_map covered (log' init ps) ++ queue (final (loop' init ps))
  /\ messages (final (loop' init ps)) = replay (log' init ps) []
  /\ records_of (log' init ps) (messages (final (loop' init ps)))
  /\ forall file, written (loop' init ps) = Some file ->
                  file = replay (log' init ps) [].
Proof.
  intros _ Hnr. split; [|split; [|split]].
  - apply (loop_cover ps init Inv_init Hnr).
  - apply (loop_replay ps init).
  - rewrite (loop_replay ps init).
    destruct (replay_records (log' init ps) (messages init)) as (rs & -> & Hrs).
    exact Hrs.
  - intros file. pose proof (loop_replay ps init) as H.
    destruct (loop' init ps); simpl in *; [discriminate|].
    unfold write_to_file. intros E; injection E as <-. exact H.
Qed.

(** C4 -- what a stop writes.  Whatever stops the loop (stall, deadline,
    termination flag or exception), the file receives the record list of
    that moment; this list extends the list of every earlier moment of the
    run, and it holds what the [save_message] calls at boundary windows
    appended and nothing else: the stop adds no record for the bytes
    pending in the queue. *)
Theorem stop_writes_records (ps : list Poll) (why : Stop) (st : State)
    (unread : list Poll) :
  loop' init ps = Stopped why st unread ->
  written (loop' init ps) = Some (messages st)
  /\ messages st = replay (log' init ps) []
  /\ forall ps1 ps2 st1,
       ps = ps1 ++ ps2 -> loop' init ps1 = Running st1 ->
       exists more, messages st = messages st1 ++ more.
Proof.
  intros H. split; [|split].
  - rewrite H. reflexivity.
  - pose proof (loop_replay ps init) as R. rewrite H in R. exact R.
  - intros ps1 ps2 st1 -> H1.
    rewrite loop_app, H1 in H.
    pose proof (loop_replay ps2 st1) as R. rewrite H in R. simpl in R.
    rewrite R. apply replay_extends.
Qed.

(** *** Runs that meet no boundary *)

Lemma same_frame_refl st : same_frame st st.
Proof. repeat split. Qed.

Lemma last_cons {A} (b : A) (bs : list A) (d : A) :
  last (b :: bs) d = last bs b.
Proof.
  revert b d; induction bs as [|c bs IH]; intros b d; [reflexivity|].
  change (last (b :: c :: bs) d) with (last (c :: bs) d).
  now rewrite (IH c d), (IH c b).
Qed.

Lemma queue_nonempty_len (q : bytes) : q <> [] -> (len q <? 1) = false.
Proof.
  intros H. destruct (len q <? 1) eqn:E; [|reflexivity].
  apply len_lt_1 in E. contradiction.
Qed.

(** Off a boundary and with no stop request, a byte goes to the queue. *)
Lemma iteration_plain st p prev b :
  read p = OneByte b ->
  calm end_time p = true ->
  queue st <> [] ->
  previous_data st = [prev] ->
  boundary [prev; b] = false ->
  iteration' st p =
    Next (mkState (messages st) (queue st ++ [b]) (ubx_flag st)
                  (ubx_timestamp st) (nmea_timestamp st)
                  (unknown_timestamp st) [b] 0).
Proof.
  intros Hr Hc Hq Hp Hb. rewrite (iteration_byte flat_time end_time st p b Hr).
  rewrite (queue_nonempty_len _ Hq).
  rewrite dispatch_other by (simpl; rewrite Hp; exact Hb).
  unfold calm in Hc. apply andb_true_iff in Hc as [Hd Ht].
  apply negb_true_iff in Hd, Ht. now rewrite Hd, Ht.
Qed.

Lemma plain_run bs : forall ps st prev,
  delivers ps bs ->
  forallb (calm end_time) ps = true ->
  queue st <> [] ->
  previous_data st = [prev] ->
  no_boundary prev bs = true ->
  exists st',
    loop' st ps = Running st' /\ same_frame st st' /\
    queue st' = queue st ++ bs /\ previous_data st' = [last bs prev].
Proof.
  induction bs as [|b bs IH]; intros ps st prev Hd Hc Hq Hp Hn.
  - destruct ps; [|discriminate]. exists st.
    simpl. rewrite app_nil_r. auto using same_frame_refl.
  - destruct ps as [|p ps]; [discriminate|].
    injection Hd as Hr Hd. simpl in Hc, Hn.
    apply andb_true_iff in Hc as [Hcp Hc].
    apply andb_true_iff in Hn as [Hb Hn]. apply negb_true_iff in Hb.
    cbn [loop]. rewrite (iteration_plain st p prev b Hr Hcp Hq Hp Hb).
    set (st1 := mkState (messages st) (queue st ++ [b]) (ubx_flag st)
                  (ubx_timestamp st) (nmea_timestamp st)
                  (unknown_timestamp st) [b] 0).
    assert (queue st1 <> []) as Hq1
        by (simpl; intros C; now apply app_eq_nil in C as [_ C]).
    destruct (IH ps st1 b Hd Hc Hq1 eq_refl Hn)
      as (st' & El & Hs & Hq' & Hp').
    exists st'. split; [exact El|]. simpl in Hq', Hs.
    split; [exact Hs|]. split.
    + rewrite Hq', <- app_assoc. reflexivity.
    + rewrite Hp', last_cons. reflexivity.
Qed.

(** The first byte of a run goes to the empty queue. *)
Lemma first_byte p b :
  read p = OneByte b ->
  iteration' init p = Next (mkState [] [b] false None None None [b] 0).
Proof. intros Hr. now rewrite (iteration_byte flat_time end_time init p b Hr). Qed.

Lemma plain_from_init first tl ps :
  delivers ps (first :: tl) ->
  forallb (calm end_time) ps = true ->
  no_boundary first tl = true ->
  exists st',
    loop' init ps = Running st' /\ same_frame init st' /\
    queue st' = first :: tl /\ previous_data st' = [last tl first].
Proof.
  intros Hd Hc Hn. destruct ps as [|p ps]; [discriminate|].
  injection Hd as Hr Hd. simpl in Hc. apply andb_true_iff in Hc as [_ Hc].
  cbn [loop]. rewrite (first_byte p first Hr).
  set (st1 := mkState [] [first] false None None None [first] 0).
  assert (queue st1 <> []) as Hq1 by (simpl; discriminate).
  destruct (plain_run tl ps st1 first Hd Hc Hq1 eq_refl Hn)
    as (st' & El & Hs & Hq & Hp).
  exists st'. auto.
Qed.

(** *** A line end inside a binary frame *)

(** C5 -- a ["\r\n"] window while the binary flag is set.  The queue then
    ends with the carriage return read one step earlier, and the line feed
    just read was never appended to it.  The iteration does not raise; the
    records it appends are all the UBX record of the queue without that
    last byte, so neither byte of the window is in the payload; the binary
    flag is cleared, the queue is emptied and the idle timestamp is
    taken. *)
Theorem crlf_closes_binary_frame (st : State) (p : Poll) (q : bytes) (u : Z) :
  read p = OneByte x0a ->
  previous_data st = [x0d] ->
  queue st = q ++ [x0d] ->
  ubx_flag st = true ->
  ubx_timestamp st = Some u ->
  let m := mkMessage (u - flat_time) UBX (hex q) in
  let st' := step_state (iteration' st p) in
  step_raised (iteration' st p) = false /\
  (exists added,
      added <> [] /\ Forall (eq m) added /\
      messages st' = messages st ++ added) /\
  payload m = Some q /\
  ubx_flag st' = false /\
  queue st' = [] /\
  unknown_timestamp st' = Some (now p).
Proof.
  intros Hr Hp Hq Hf Hu m st'.
  assert (payload m = Some q) as Hpay by (unfold payload; simpl; apply fromhex_hex).
  destruct (save_message_hex_typed (messages st) q (u - flat_time) UBX eq_refl)
    as (added & Hne & Hall & Hsave).
  assert (dispatch' (set_null_cnt st 0) [x0a] (now p) =
          Some (mkState (messages st ++ added) [] false (Some u)
                        (nmea_timestamp st) (Some (now p)) [x0d] 0)) as Hd.
  { unfold dispatch. simpl. rewrite Hp, Hf, Hu, Hq, removelast_snoc. simpl.
    now rewrite Hsave. }
  subst st'. rewrite (iteration_byte flat_time end_time st p x0a Hr).
  rewrite queue_nonempty_len
    by (rewrite Hq; intros C; now apply app_eq_nil in C as [_ C]).
  rewrite Hd.
  destruct (past_deadline end_time (t p)); [|destruct (TERMINATOR_FLAG p)];
    simpl; (split; [reflexivity|]); (split; [exists added; auto|]); auto.
Qed.

(** *** A binary frame between two sync patterns *)

(** C3 -- sync pattern, [N] bytes that form no boundary window, sync
    pattern.  When the second pattern is recognised the loop goes on with
    a non-empty record list whose records are all the UBX record of the
    first pattern followed by the [N] bytes -- a payload of [N + 2] bytes,
    stamped with the clock of the first pattern -- and the queue holds the
    second pattern only, with the binary flag set. *)
Theorem binary_frame_between_syncs (body : bytes) (p1 p2 p3 p4 : Poll)
    (mid : list Poll) :
  let ps := p1 :: p2 :: mid ++ [p3; p4] in
  read p1 = OneByte xb5 -> read p2 = OneByte x62 ->
  delivers mid body ->
  read p3 = OneByte xb5 -> read p4 = OneByte x62 ->
  forallb (calm end_time) ps = true ->
  no_boundary x62 (body ++ [xb5]) = true ->
  let m := mkMessage (now p2 - flat_time) UBX (hex (UBX_SYNC ++ body)) in
  exists st,
    loop' init ps = Running st /\
    messages st <> [] /\ Forall (eq m) (messages st) /\
    payload m = Some (UBX_SYNC ++ body) /\
    len (UBX_SYNC ++ body) = len body + 2 /\
    queue st = UBX_SYNC /\ ubx_flag st = true /\
    ubx_timestamp st = Some (now p4).
Proof.
  intros ps H1 H2 Hmid H3 H4 Hcalm Hnb m.
  assert (payload m = Some (UBX_SYNC ++ body)) as Hpay
      by (unfold payload; simpl; apply (fromhex_hex (xb5 :: x62 :: body))).
  subst ps. simpl in Hcalm.
  apply andb_true_iff in Hcalm as [_ Hcalm].
  apply andb_true_iff in Hcalm as [Hc2 Hcalm].
  rewrite forallb_app in Hcalm. apply andb_true_iff in Hcalm as [Hcmid Hc34].
  simpl in Hc34. apply andb_true_iff in Hc34 as [Hc3 Hc4].
  apply andb_true_iff in Hc4 as [Hc4 _].
  (* the first pattern *)
  cbn [loop]. rewrite (first_byte p1 xb5 H1).
  rewrite (iteration_byte flat_time end_time _ p2 x62 H2). simpl.
  unfold calm in Hc2. apply andb_true_iff in Hc2 as [Hd2 Ht2].
  apply negb_true_iff in Hd2, Ht2. rewrite Hd2, Ht2.
  (* the body and the first byte of the second pattern *)
  change (mid ++ [p3; p4]) with (mid ++ [p3] ++ [p4]).
  rewrite app_assoc, loop_app.
  set (st2 := set_previous_data _ _).
  assert (delivers (mid ++ [p3]) (body ++ [xb5])) as Hd3.
  { unfold delivers in *. rewrite !map_app, Hmid. simpl. now rewrite H3. }
  assert (forallb (calm end_time) (mid ++ [p3]) = true) as Hc
      by (rewrite forallb_app, Hcmid; simpl; now rewrite Hc3).
  destruct (plain_run (body ++ [xb5]) (mid ++ [p3]) st2 x62 Hd3 Hc
              ltac:(discriminate) eq_refl Hnb)
    as (st3 & -> & (Hm3 & Hf3 & Hu3 & _ & _) & Hq3 & Hp3).
  simpl in Hm3, Hf3, Hu3, Hq3. rewrite last_last in Hp3.
  (* the second byte of the second pattern *)
  cbn [loop]. rewrite (iteration_byte flat_time end_time st3 p4 x62 H4).
  rewrite queue_nonempty_len by (rewrite Hq3; discriminate).
  assert (removelast (queue st3) = xb5 :: x62 :: body) as Hrl.
  { rewrite Hq3. apply (removelast_snoc (xb5 :: x62 :: body) xb5). }
  unfold dispatch, close_pending.
  cbn [set_null_cnt previous_data queue ubx_flag ubx_timestamp messages].
  rewrite Hp3, Hf3, Hu3, Hm3, Hrl. simpl.
  destruct (save_message_hex_typed [] (xb5 :: x62 :: body)
              (now p2 - flat_time) UBX eq_refl)
    as (added & Hne & Hall & Hsave).
  unfold calm in Hc4. apply andb_true_iff in Hc4 as [Hd4 Ht4].
  apply negb_true_iff in Hd4, Ht4. rewrite Hd4, Ht4.
  eexists. split; [reflexivity|]. simpl. rewrite Hsave.
  repeat split; auto.
  unfold len. simpl List.length. lia.
Qed.

(** *** Timestamps that were never taken *)

Lemma crlf_not_sync w : bytes_eqb w CRLF = true -> bytes_eqb w UBX_SYNC = false.
Proof. intros H; apply bytes_eqb_eq in H; subst; reflexivity. Qed.

Lemma since_none ts : since flat_time ts = None <-> ts = None.
Proof. destruct ts; simpl; split; congruence. Qed.

(** [dispatch] raises exactly when its branch needs a timestamp that is
    still [None]. *)
Lemma dispatch_raises_iff st data now0 :
  dispatch' st data now0 = None <->
  needed_timestamp st (previous_data st ++ data) = Some None.
Proof.
  unfold dispatch, needed_timestamp, close_pending.
  destruct (bytes_eqb (previous_data st ++ data) NMEA_START) eqn:E1; simpl.
  { destruct (ubx_flag st).
    - destruct (ubx_timestamp st); simpl; split; congruence.
    - destruct (0 <? len (queue st) - 1); [|split; discriminate].
      destruct (unknown_timestamp st); simpl; split; congruence. }
  destruct (bytes_eqb (previous_data st ++ data) CRLF) eqn:E2.
  { rewrite (crlf_not_sync _ E2).
    destruct (ubx_flag st); simpl.
    - destruct (ubx_timestamp st); simpl; split; congruence.
    - destruct (nmea_timestamp st); simpl; split; congruence. }
  destruct (bytes_eqb (previous_data st ++ data) UBX_SYNC) eqn:E3;
    [|split; discriminate].
  destruct (ubx_flag st).
  - destruct (ubx_timestamp st); simpl; split; congruence.
  - destruct (0 <? len (queue st) - 1); [|split; discriminate].
    destruct (unknown_timestamp st); simpl; split; congruence.
Qed.

Lemma needed_timestamp_null_cnt st n w :
  needed_timestamp (set_null_cnt st n) w = needed_timestamp st w.
Proof. reflexivity. Qed.

(** The iteration that needs a missing timestamp ends the loop through
    the exception handler, with the records as they were. *)
Lemma iteration_raises st p b :
  read p = OneByte b ->
  queue st <> [] ->
  needed_timestamp st (previous_data st ++ [b]) = Some None ->
  iteration' st p = Break Raised (set_null_cnt st 0).
Proof.
  intros Hr Hq Hn. rewrite (iteration_byte flat_time end_time st p b Hr).
  rewrite (queue_nonempty_len _ Hq).
  rewrite <- (needed_timestamp_null_cnt st 0) in Hn.
  apply (dispatch_raises_iff (set_null_cnt st 0) [b] (now p)) in Hn.
  now rewrite Hn.
Qed.

(** C6 -- a record is due before its timestamp was ever taken.  In any
    state, when the branch selected by the window has to call
    [save_message] with a timestamp variable that is still [None], the
    subtraction raises: the loop ends through the exception handler
    without making the call, and [finally] writes the records accumulated
    so far.  From the start this is the case (i) at the first ["$G"]
    window when two or more bytes that met no boundary are pending, and
    (ii) at a ["\r\n"] window that comes before any other boundary
    window. *)
Theorem none_timestamp_raises :
  (forall st p b rest,
      read p = OneByte b ->
      queue st <> [] ->
      needed_timestamp st (previous_data st ++ [b]) = Some None ->
      loop' st (p :: rest) = Stopped Raised (set_null_cnt st 0) rest /\
      written (loop' st (p :: rest)) = Some (messages st)) /\
  (forall first pre ps p rest,
      delivers ps (first :: pre ++ [x24]) ->
      forallb (calm end_time) ps = true ->
      no_boundary first (pre ++ [x24]) = true ->
      read p = OneByte x47 ->
      exists st,
        loop' init (ps ++ p :: rest) = Stopped Raised st rest /\
        queue st = first :: pre ++ [x24] /\
        written (loop' init (ps ++ p :: rest)) = Some []) /\
  (forall first pre ps p rest,
      delivers ps (first :: pre) ->
      forallb (calm end_time) ps = true ->
      no_boundary first pre = true ->
      last pre first = x0d ->
      read p = OneByte x0a ->
      exists st,
        loop' init (ps ++ p :: rest) = Stopped Raised st rest /\
        queue st = first :: pre /\
        written (loop' init (ps ++ p :: rest)) = Some []).
Proof.
  split; [|split].
  - intros st p b rest Hr Hq Hn. cbn [loop].
    rewrite (iteration_raises st p b Hr Hq Hn). split; reflexivity.
  - intros first pre ps p rest Hd Hc Hnb Hr.
    destruct (plain_from_init first (pre ++ [x24]) ps Hd Hc Hnb)
      as (st & El & (Hm & Hf & _ & _ & Hu) & Hq & Hp).
    rewrite last_last in Hp. simpl in Hm, Hf, Hu.
    assert (needed_timestamp st (previous_data st ++ [x47]) = Some None) as Hn.
    { assert ((0 <? len (queue st) - 1) = true) as Hlen.
      { rewrite Hq. apply Z.ltb_lt. unfold len. cbn [List.length].
        rewrite length_app. cbn [List.length]. lia. }
      unfold needed_timestamp. rewrite Hp, Hf, Hu, Hlen. reflexivity. }
    exists (set_null_cnt st 0). rewrite loop_app, El. cbn [loop].
    rewrite (iteration_raises st p x47 Hr ltac:(rewrite Hq; discriminate) Hn).
    simpl. rewrite Hm. auto.
  - intros first pre ps p rest Hd Hc Hnb Hl Hr.
    destruct (plain_from_init first pre ps Hd Hc Hnb)
      as (st & El & (Hm & Hf & _ & Hnm & _) & Hq & Hp).
    rewrite Hl in Hp. simpl in Hm, Hf, Hnm.
    assert (needed_timestamp st (previous_data st ++ [x0a]) = Some None) as Hn.
    { unfold needed_timestamp. rewrite Hp, Hf, Hnm. reflexivity. }
    exists (set_null_cnt st 0). rewrite loop_app, El. cbn [loop].
    rewrite (iteration_raises st p x0a Hr ltac:(rewrite Hq; discriminate) Hn).
    simpl. rewrite Hm. auto.
Qed.

(** *** The fallback of [save_message] inside the loop *)

(** Only the text family can fail to be rendered: [res.hex()] never
    raises. *)
Lemma render_none res ty : render res ty = None -> ty = NMEA.
Proof. destruct ty; [reflexivity | discriminate | discriminate]. Qed.

(** At the line feed of a line whose bytes are not valid text, the
    iteration does not raise: it appends the one "Unknown" record and
    empties the queue, and without a stop request the loop goes on. *)
Lemma fallback_iteration st p ts :
  read p = OneByte x0a ->
  previous_data st = [x0d] ->
  queue st <> [] ->
  ubx_flag st = false ->
  nmea_timestamp st = Some ts ->
  decode (queue st ++ [x0a]) = None ->
  let m := mkMessage (ts - flat_time) Unknown (hex (queue st ++ [x0a])) in
  step_raised (iteration' st p) = false /\
  messages (step_state (iteration' st p)) = messages st ++ [m] /\
  queue (step_state (iteration' st p)) = [] /\
  (calm end_time p = true -> exists st', iteration' st p = Next st').
Proof.
  intros Hr Hp Hq Hf Hn Hd m.
  assert (dispatch' (set_null_cnt st 0) [x0a] (now p) =
          Some (mkState (messages st ++ [m]) [] false (ubx_timestamp st)
                        (Some ts) (Some (now p)) [x0d] 0)) as E.
  { unfold dispatch.
    cbn [set_null_cnt previous_data queue ubx_flag ubx_timestamp messages
         nmea_timestamp unknown_timestamp null_cnt].
    rewrite Hp, Hf, Hn. simpl.
    unfold save_message, render. simpl. now rewrite Hd. }
  rewrite (iteration_byte flat_time end_time st p x0a Hr).
  rewrite (queue_nonempty_len _ Hq), E. unfold calm.
  destruct (past_deadline end_time (t p)); [|destruct (TERMINATOR_FLAG p)];
    simpl; repeat split; try discriminate; eauto.
Qed.

(** C7 -- classification fallback.  A payload that cannot be rendered in
    the encoding of its family is always a text (NMEA) payload that
    [res.decode()] rejects, [res.hex()] never failing for a binary one;
    [save_message] then appends exactly one record, tagged "Unknown",
    whose data is the hex form from which the payload bytes are
    recovered.  Inside [read_serial] this is no error: the iteration
    that saves such a line does not end in the exception handler, and a
    sentence ["$G" ... "\r\n"] read from the start whose bytes are not
    valid text leaves the loop running with that one record, the queue
    empty, and every later read processed as usual. *)
Theorem classification_fallback (body : bytes) (p1 p2 p3 : Poll)
    (mid rest : list Poll) :
  let sentence := NMEA_START ++ body ++ CRLF in
  let ps := p1 :: p2 :: mid ++ [p3] in
  let m := mkMessage (now p2 - flat_time) Unknown (hex sentence) in
  read p1 = OneByte x24 -> read p2 = OneByte x47 ->
  delivers mid (body ++ [x0d]) ->
  read p3 = OneByte x0a ->
  forallb (calm end_time) ps = true ->
  no_boundary x47 (body ++ [x0d]) = true ->
  decode sentence = None ->
  (exists st,
      loop' init ps = Running st /\
      messages st = [m] /\ queue st = [] /\
      loop' init (ps ++ rest) = loop' st rest) /\
  payload m = Some sentence /\
  (forall messages0 res ts ty,
      render res ty = None ->
      ty = NMEA /\
      save_message messages0 res ts ty
        = messages0 ++ [mkMessage ts Unknown (hex res)] /\
      payload (mkMessage ts Unknown (hex res)) = Some res) /\
  (forall res, render res UBX = Some (hex res)) /\
  (forall st p ts,
      read p = OneByte x0a ->
      previous_data st = [x0d] ->
      queue st <> [] ->
      ubx_flag st = false ->
      nmea_timestamp st = Some ts ->
      decode (queue st ++ [x0a]) = None ->
      step_raised (iteration' st p) = false /\
      messages (step_state (iteration' st p))
        = messages st
          ++ [mkMessage (ts - flat_time) Unknown (hex (queue st ++ [x0a]))] /\
      (calm end_time p = true -> exists st', iteration' st p = Next st')).
Proof.
  intros sentence ps m H1 H2 Hmid H3 Hcalm Hnb Hdec.
  assert (payload m = Some sentence) as Hpay
      by (change (payload m) with (fromhex (hex sentence)); apply fromhex_hex).
  split; [|split; [exact Hpay|split; [|split; [reflexivity|]]]].
  - subst ps. cbn [forallb] in Hcalm.
    apply andb_true_iff in Hcalm as [_ Hcalm].
    apply andb_true_iff in Hcalm as [Hc2 Hcalm].
    rewrite forallb_app in Hcalm. apply andb_true_iff in Hcalm as [Hcmid Hc3].
    cbn [forallb] in Hc3. apply andb_true_iff in Hc3 as [Hc3 _].
    assert (exists st, loop' init (p1 :: p2 :: mid ++ [p3]) = Running st /\
                       messages st = [m] /\ queue st = []) as (st & El & Hm & Hq).
    { (* the start of the sentence *)
      cbn [loop]. rewrite (first_byte p1 x24 H1).
      rewrite (iteration_byte flat_time end_time _ p2 x47 H2). simpl.
      unfold calm in Hc2. apply andb_true_iff in Hc2 as [Hd2 Ht2].
      apply negb_true_iff in Hd2, Ht2. rewrite Hd2, Ht2.
      (* its body, up to the carriage return *)
      rewrite loop_app.
      set (st2 := set_previous_data _ _).
      destruct (plain_run (body ++ [x0d]) mid st2 x47 Hmid Hcmid
                  ltac:(discriminate) eq_refl Hnb)
        as (st3 & -> & (Hm3 & Hf3 & _ & Hn3 & _) & Hq3 & Hp3).
      simpl in Hm3, Hf3, Hn3, Hq3. rewrite last_last in Hp3.
      (* the line feed *)
      assert (queue st3 ++ [x0a] = sentence) as Hs.
      { rewrite Hq3. subst sentence. unfold NMEA_START, CRLF.
        simpl. rewrite <- app_assoc. reflexivity. }
      destruct (fallback_iteration st3 p3 (now p2) H3 Hp3
                  ltac:(rewrite Hq3; discriminate) Hf3 Hn3
                  ltac:(rewrite Hs; exact Hdec))
        as (_ & Hm' & Hq' & Hnext).
      destruct (Hnext Hc3) as [st' E].
      cbn [loop]. rewrite E in *. cbn [step_state] in *.
      exists st'. split; [reflexivity|]. split; [|exact Hq'].
      rewrite Hm', Hm3, Hs. reflexivity. }
    exists st. split; [exact El|]. split; [exact Hm|]. split; [exact Hq|].
    now rewrite loop_app, El.
  - intros messages0 res ts ty Hr.
    split; [now apply render_none with res|].
    split; [unfold save_message; now rewrite Hr|].
    unfold payload; simpl. apply fromhex_hex.
  - intros st p ts Hr Hp Hq Hf Hn Hd.
    destruct (fallback_iteration st p ts Hr Hp Hq Hf Hn Hd) as (A & B & _ & C).
    auto.
Qed.

End FramerRuns.

Lemma classification_fallback_witness :
  let script := [feed 1 x24; feed 2 x47; feed 3 xff; feed 4 x0d; feed 5 x0a] in
  exists st,
    loop 0 None init script = Running st /\
    messages st = [mkMessage (2 - 0) Unknown (hex [x24; x47; xff; x0d; x0a])] /\
    queue st = [] /\
    loop 0 None init (script ++ map (feed 6) GPGGA)
      = loop 0 None st (map (feed 6) GPGGA).
Proof.
  intros script.
  refine (proj1 (classification_fallback 0 None [xff]
                   (feed 1 x24) (feed 2 x47) (feed 5 x0a)
                   [feed 3 xff; feed 4 x0d] (map (feed 6) GPGGA)
                   _ _ _ _ _ _ _)); vm_compute; reflexivity.
Defined.

(** ** Concrete runs *)

Lemma coverage_of_calls_witness :
  let ps := map (feed 7) [xb5; x62; x01; x0d; x0a; x24; x47] in
  delivered (polled 0 None init ps)
    = flat_map covered (log 0 None init ps) ++ queue (final (loop 0 None init ps)).
Proof.
  intros ps.
  refine (proj1 (coverage_of_calls 0 None ps _ _)).
  - repeat (constructor; [eexists; reflexivity|]). constructor.
  - vm_compute. reflexivity.
Defined.

(** C1 as stated fails: (i) two bytes are read and the loop is stopped by
    the termination flag -- the file holds no record, so its payloads are
    not the bytes read; (ii) a binary frame is closed by a line end and
    the loop is stopped -- every record of the file has the payload
    [b5 62 01], so the bytes [0d 0a] that were read are in no payload. *)
Lemma payloads_are_not_the_input :
  (let ps := then_terminate 1 [x41] x42 in
   exists file,
     read_serial None 0 0 ps = Some file /\
     payloads file <> Some (delivered ps)) /\
  (let ps := then_terminate 1 [xb5; x62; x01; x0d] x0a in
   exists file,
     read_serial None 0 0 ps = Some file /\
     payloads file <> Some (delivered ps) /\
     forall m, In m file -> payload m = Some [xb5; x62; x01]).
Proof.
  split.
  - exists []. split; [vm_compute; reflexivity | vm_compute; discriminate].
  - set (m := mkMessage 1 UBX (hex [xb5; x62; x01])).
    exists [m; m]. split; [vm_compute; reflexivity|].
    split; [vm_compute; discriminate|].
    intros r [<- | [<- | []]]; vm_compute; reflexivity.
Qed.

Lemma binary_frame_between_syncs_witness :
  exists st,
    loop 0 None init (feed 1 xb5 :: feed 2 x62 :: [feed 3 x01] ++ [feed 4 xb5; feed 5 x62])
      = Running st /\
    messages st <> [] /\
    Forall (eq (mkMessage (2 - 0) UBX (hex (UBX_SYNC ++ [x01])))) (messages st) /\
    payload (mkMessage (2 - 0) UBX (hex (UBX_SYNC ++ [x01]))) = Some (UBX_SYNC ++ [x01]) /\
    len (UBX_SYNC ++ [x01]) = len [x01] + 2 /\
    queue st = UBX_SYNC /\ ubx_flag st = true /\ ubx_timestamp st = Some 5.
Proof.
  apply (binary_frame_between_syncs 0 None [x01] (feed 1 xb5) (feed 2 x62)
           (feed 4 xb5) (feed 5 x62) [feed 3 x01]); vm_compute; reflexivity.
Defined.

(** C3 as stated fails at [N = 1]: after [b5 62 01 b5 62] every record has
    the three-byte payload [b5 62 01], none a payload of one byte. *)
Lemma binary_payload_keeps_sync :
  exists st,
    loop 0 None init (map (feed 7) [xb5; x62; x01; xb5; x62]) = Running st /\
    messages st <> [] /\
    (forall m, In m (messages st) ->
               type m = UBX /\ payload m = Some [xb5; x62; x01]) /\
    ~ exists m pl, In m (messages st) /\ payload m = Some pl /\ len pl = 1.
Proof.
  set (m := mkMessage 7 UBX (hex [xb5; x62; x01])).
  exists (mkState [m; m] [xb5; x62] true (Some 7) None None [x62] 0).
  split; [vm_compute; reflexivity|]. split; [discriminate|].
  assert (payload m = Some [xb5; x62; x01]) as Hm by (vm_compute; reflexivity).
  cbn [messages]. split.
  - intros r [<- | [<- | []]]; (split; [reflexivity | exact Hm]).
  - intros (r & pl & [<- | [<- | []]] & Hp & Hl);
      rewrite Hm in Hp; injection Hp as <-; vm_compute in Hl; discriminate Hl.
Qed.

Lemma stop_writes_records_witness :
  let ps := then_terminate 1 [xb5; x62; x01; x0d] x0a in
  exists st,
    loop 0 None init ps = Stopped Interrupted st [] /\
    written (loop 0 None init ps) = Some (messages st) /\
    messages st = replay (log 0 None init ps) [].
Proof.
  intros ps.
  set (m := mkMessage 1 UBX (hex [xb5; x62; x01])).
  exists (mkState [m; m] [] false (Some 1) None (Some 1) [x0d] 0).
  assert (loop 0 None init ps
          = Stopped Interrupted
              (mkState [m; m] [] false (Some 1) None (Some 1) [x0d] 0) [])
    as E by (vm_compute; reflexivity).
  split; [exact E|].
  destruct (stop_writes_records 0 None ps _ _ _ E) as (Hw & Hr & _).
  split; [exact Hw | exact Hr].
Defined.

(** C4 as stated fails: two bytes are read and the termination flag stops
    the loop -- two bytes are pending in the queue, and the file is
    written without any record. *)
Lemma pending_bytes_not_flushed :
  let ps := then_terminate 1 [x41] x42 in
  exists st,
    loop 0 None init ps = Stopped Interrupted st [] /\
    queue st = [x41; x42] /\
    len (queue st) <> 0 /\
    read_serial None 0 0 ps = Some [].
Proof.
  exists (mkState [] [x41; x42] false None None None [x41] 0).
  repeat split; try (vm_compute; reflexivity). vm_compute; discriminate.
Qed.

Lemma crlf_closes_binary_frame_witness :
  let st := mkState [] [xb5; x62; x01; x0d] true (Some 3) None None [x0d] 0 in
  let st' := step_state (iteration 0 None st (feed 9 x0a)) in
  (exists added,
      added <> [] /\
      Forall (eq (mkMessage (3 - 0) UBX (hex [xb5; x62; x01]))) added /\
      messages st' = messages st ++ added) /\
  ubx_flag st' = false /\ queue st' = [].
Proof.
  intros st st'.
  destruct (crlf_closes_binary_frame 0 None st (feed 9 x0a) [xb5; x62; x01] 3
              eq_refl eq_refl eq_refl eq_refl eq_refl)
    as (_ & Hadd & _ & Hf & Hq & _).
  split; [exact Hadd|]. split; [exact Hf | exact Hq].
Defined.

(** C5 as stated fails: after [b5 62 01 0d] the pending buffer is
    [b5 62 01 0d] and the line feed that arrives next is not in it; the
    records appended at the line feed have the payload [b5 62 01], which
    is the buffer less its carriage return, not the buffer less the byte
    that just arrived. *)
Lemma crlf_drops_carriage_return :
  exists st0 st1,
    loop 0 None init (map (feed 7) [xb5; x62; x01; x0d]) = Running st0 /\
    queue st0 = [xb5; x62; x01; x0d] /\
    loop 0 None st0 [feed 8 x0a] = Running st1 /\
    messages st1 <> [] /\
    forall m, In m (messages st1) ->
      type m = UBX /\
      payload m = Some [xb5; x62; x01] /\
      payload m <> Some (queue st0) /\
      payload m <> Some (removelast (queue st0 ++ [x0a])).
Proof.
  set (m := mkMessage 7 UBX (hex [xb5; x62; x01])).
  exists (mkState [] [xb5; x62; x01; x0d] true (Some 7) None None [x0d] 0).
  exists (mkState [m; m] [] false (Some 7) None (Some 8) [x0a] 0).
  split; [vm_compute; reflexivity|]. split; [reflexivity|].
  split; [vm_compute; reflexivity|]. split; [discriminate|].
  assert (payload m = Some [xb5; x62; x01]) as Hm by (vm_compute; reflexivity).
  cbn [messages queue].
  intros r [<- | [<- | []]]; (split; [reflexivity|]); (split; [exact Hm|]);
    rewrite Hm; split; vm_compute; discriminate.
Qed.

Lemma none_timestamp_raises_witness :
  exists st,
    loop 0 None init ([feed 1 x41; feed 2 x24] ++ feed 3 x47 :: [feed 4 x50])
      = Stopped Raised st [feed 4 x50] /\
    queue st = x41 :: [] ++ [x24] /\
    written (loop 0 None init ([feed 1 x41; feed 2 x24] ++ feed 3 x47 :: [feed 4 x50]))
      = Some [].
Proof.
  apply (proj1 (proj2 (none_timestamp_raises 0 None)) x41 []
           [feed 1 x41; feed 2 x24] (feed 3 x47) [feed 4 x50]);
    vm_compute; reflexivity.
Defined.

(** * Further properties of the code *)

(** ** More on [save_message] *)

(** X1 -- [save_message] keeps the records it is given and appends one or
    two records; each of them stands for exactly the bytes [res], carries
    the timestamp it was given, and is tagged with the given type or, on
    the fallback path, with "Unknown". *)
Theorem save_message_keeps_payload
    (messages0 : list Message) (res : bytes) (ts : Z) (ty : MessageType) :
  exists added,
    save_message messages0 res ts ty = messages0 ++ added /\
    (List.length added = 1 \/ List.length added = 2)%nat /\
    Forall (fun m => payload m = Some res /\ timestamp m = ts /\
                     (type m = ty \/ type m = Unknown)) added.
Proof.
  unfold save_message. destruct (render res ty) as [d|] eqn:E.
  - exists [mkMessage ts ty d; mkMessage ts ty d].
    pose proof (render_payload res ts ty d E) as Hp.
    split; [now rewrite <- app_assoc|]. split; [now right|].
    repeat (constructor; [repeat split; auto|]). constructor.
  - exists [mkMessage ts Unknown (hex res)].
    split; [reflexivity|]. split; [now left|].
    assert (payload (mkMessage ts Unknown (hex res)) = Some res) as Hp
        by (unfold payload; simpl; apply fromhex_hex).
    repeat (constructor; [repeat split; auto|]). constructor.
Qed.

(** Bytes below 0x80 decode to themselves. *)
Lemma decode_ascii (res : bytes) :
  forallb (fun b => (Byte.to_N b <? 128)%N) res = true ->
  decode res = Some (map Byte.to_N res).
Proof.
  induction res as [|b r IH]; [reflexivity|].
  cbn [forallb]. intros H. apply andb_true_iff in H as [Hb Hr].
  cbn [decode map]. rewrite Hb, (IH Hr). reflexivity.
Qed.

(** X2 -- an NMEA payload made of ASCII bytes never takes the fallback
    path: it is stored as text, character for character, under the type
    "NMEA" (twice, by the [try] body and by [finally]). *)
Theorem ascii_sentence_stored_as_text
    (messages0 : list Message) (res : bytes) (ts : Z) :
  forallb (fun b => (Byte.to_N b <? 128)%N) res = true ->
  let m := mkMessage ts NMEA (map Byte.to_N res) in
  save_message messages0 res ts NMEA = messages0 ++ [m; m] /\
  payload m = Some res.
Proof.
  intros H m.
  assert (render res NMEA = Some (map Byte.to_N res)) as Hr
      by (unfold render; simpl; now apply decode_ascii).
  split.
  - now apply save_message_twice.
  - now apply render_payload.
Qed.

Lemma ascii_sentence_stored_as_text_witness :
  save_message [] GPGGA 3 NMEA
    = [] ++ [mkMessage 3 NMEA (map Byte.to_N GPGGA);
             mkMessage 3 NMEA (map Byte.to_N GPGGA)].
Proof.
  apply (ascii_sentence_stored_as_text [] GPGGA 3). vm_compute. reflexivity.
Defined.

(** ** More on [read_serial] *)

Section FramerMore.

Variable flat_time : Z.
Variable end_time : option Z.

Local Abbreviation dispatch' := (dispatch flat_time).
Local Abbreviation iteration' := (iteration flat_time end_time).
Local Abbreviation loop' := (loop flat_time end_time).
Local Abbreviation log' := (log flat_time end_time).

(** *** Invariants of the reachable states *)

Lemma dispatch_Binary_inv st data now0 st' :
  dispatch' st data now0 = Some st' -> Binary_inv st -> Binary_inv st'.
Proof.
  unfold dispatch, Binary_inv. intros H Hb.
  destruct (bytes_eqb (previous_data st ++ data) NMEA_START).
  { destruct (close_pending flat_time st); [|discriminate].
    injection H as <-. simpl. discriminate. }
  destruct (bytes_eqb (previous_data st ++ data) CRLF).
  { destruct (ubx_flag st); simpl in H.
    - destruct (since flat_time (ubx_timestamp st)); [|discriminate].
      injection H as <-. simpl. discriminate.
    - destruct (since flat_time (nmea_timestamp st)); [|discriminate].
      injection H as <-. simpl. discriminate. }
  destruct (bytes_eqb (previous_data st ++ data) UBX_SYNC) eqn:E.
  { destruct (close_pending flat_time st); [|discriminate].
    injection H as <-. simpl. intros _. split; [discriminate|].
    apply bytes_eqb_eq in E. exists []. now rewrite E. }
  injection H as <-. simpl. intros Hf.
  destruct (Hb Hf) as [Hu [r Hq]]. split; [exact Hu|].
  exists (r ++ data). now rewrite Hq, <- app_assoc.
Qed.

Lemma iteration_Binary_inv st p st' :
  iteration' st p = Next st' -> Binary_inv st -> Binary_inv st'.
Proof.
  intros H Hb.
  destruct (read p) eqn:Hr;
    try (rewrite iteration_error in H by assumption; discriminate).
  all: rewrite iteration_shape in H by congruence; rewrite Hr in H; cbn zeta in H.
  all: destruct (NULL_CNT <? _); [discriminate|].
  all: destruct (len (queue st) <? 1) eqn:Elen.
  all: try (apply len_lt_1 in Elen; injection H as <-; unfold Binary_inv in *;
            simpl; intros Hf; destruct (Hb Hf) as [_ [r Hq]];
            rewrite Elen in Hq; discriminate).
  all: match type of H with
       | context [dispatch' ?s ?d ?n] =>
           destruct (dispatch' s d n) as [st1|] eqn:E; [|discriminate]
       end.
  all: destruct (past_deadline end_time (t p)); [discriminate|].
  all: destruct (TERMINATOR_FLAG p); [discriminate|].
  all: injection H as <-.
  all: apply dispatch_Binary_inv in E; [exact E | exact Hb].
Qed.

Lemma Binary_inv_init : Binary_inv init.
Proof. unfold Binary_inv. simpl. discriminate. Qed.

Lemma running_Binary_inv ps : forall st st',
  Binary_inv st -> loop' st ps = Running st' -> Binary_inv st'.
Proof.
  induction ps as [|p ps IH]; intros st st' Hb; cbn [loop].
  - intros H; injection H as <-. exact Hb.
  - destruct (iteration' st p) as [st1|why st1] eqn:E; [|discriminate].
    apply IH. now apply (iteration_Binary_inv st p).
Qed.

Lemma dispatch_previous_data st data now0 st' :
  dispatch' st data now0 = Some st' -> previous_data st' = previous_data st.
Proof.
  unfold dispatch. intros H.
  repeat match type of H with
         | context [if ?c then _ else _] => destruct c
         | context [match ?c with Some _ => _ | None => _ end] => destruct c
         end; inversion H; reflexivity.
Qed.

(** What holds of the state an iteration stops in. *)
Lemma iteration_break_state st p why st' :
  iteration' st p = Break why st' ->
  (List.length (previous_data st) <= 1)%nat ->
  0 <= null_cnt st <= NULL_CNT ->
  Binary_inv st ->
  (List.length (previous_data st') <= 1)%nat /\
  (why = Stalled -> null_cnt st' = NULL_CNT + 1) /\
  (why <> Stalled -> 0 <= null_cnt st' <= NULL_CNT) /\
  Binary_inv st'.
Proof.
  intros H Hlen Hn Hb.
  assert (forall n, Binary_inv (set_null_cnt st n)) as Hbn by (intros n; exact Hb).
  destruct (read p) eqn:Hr.
  3: { rewrite iteration_error in H by assumption. injection H as <- <-.
       split; [exact Hlen|]. split; [intros C; discriminate C|]. split; [auto|exact Hb]. }
  all: rewrite iteration_shape in H by congruence; rewrite Hr in H; cbn zeta in H.
  all: cbn [data_of set_null_cnt null_cnt] in H.
  all: match type of H with
       | context [NULL_CNT <? ?c] =>
           destruct (NULL_CNT <? c) eqn:En;
             [apply Z.ltb_lt in En | apply Z.ltb_ge in En]
       end.
  all: try (injection H as <- <-;
            split; [exact Hlen|]; split; [intros _; cbn [null_cnt set_null_cnt]; unfold NULL_CNT in *; lia|];
            split; [intros C; exfalso; now apply C | apply Hbn]).
  all: destruct (len (queue st) <? 1); [discriminate|].
  all: match type of H with
       | context [dispatch' ?s ?d ?n] =>
           destruct (dispatch' s d n) as [st1|] eqn:E
       end.
  all: try (injection H as <- <-;
            split; [exact Hlen|]; split; [intros C; discriminate C|];
            split; [intros _; cbn [null_cnt set_null_cnt]; unfold NULL_CNT in *; lia | apply Hbn]).
  all: pose proof (dispatch_null_cnt flat_time _ _ _ _ E) as Hc.
  all: pose proof (dispatch_previous_data _ _ _ _ E) as Hp.
  all: pose proof (dispatch_Binary_inv _ _ _ _ E (Hbn _)) as Hb'.
  all: cbn [null_cnt set_null_cnt previous_data] in Hc, Hp.
  all: assert (why <> Stalled /\ st1 = st') as [Hw ->]
      by (destruct (past_deadline end_time (t p));
          [injection H as <- <-; split; [discriminate | reflexivity]|];
          destruct (TERMINATOR_FLAG p); [|discriminate];
          injection H as <- <-; split; [discriminate | reflexivity]).
  all: split; [rewrite Hp; exact Hlen|]; split; [intros C; contradiction|];
    split; [intros _; rewrite Hc; unfold NULL_CNT in *; lia | exact Hb'].
Qed.

Lemma stopped_state ps : forall st why st' unread,
  Inv st -> 0 <= null_cnt st <= NULL_CNT -> Binary_inv st ->
  loop' st ps = Stopped why st' unread ->
  (List.length (previous_data st') <= 1)%nat /\
  (why = Stalled -> null_cnt st' = NULL_CNT + 1) /\
  (why <> Stalled -> 0 <= null_cnt st' <= NULL_CNT) /\
  Binary_inv st'.
Proof.
  induction ps as [|p ps IH]; intros st why st' unread Hi Hn Hb; cbn [loop];
    [discriminate|].
  destruct (iteration' st p) as [st1|why1 st1] eqn:E.
  - apply IH.
    + now apply (iteration_Inv flat_time end_time st p).
    + apply (iteration_null_cnt flat_time end_time st p); [lia | exact E].
    + now apply (iteration_Binary_inv st p).
  - intros H; injection H as <- <- <-.
    destruct Hi as [Hlen _].
    exact (iteration_break_state st p why1 st1 E Hlen Hn Hb).
Qed.

(** X3 -- the variables of [read_serial] after any reads from the start.
    While the loop is running (at the head of every iteration):
    [previous_data] holds at most one byte, a non-empty queue ends with
    it, the counter of empty reads is between 0 and [NULL_CNT], and while
    the binary flag is set the binary timestamp has been taken and the
    queue begins with the sync pattern.  In the state the loop stops in,
    whatever stopped it: [previous_data] holds at most one byte, the
    counter is [NULL_CNT + 1] at a stall stop and between 0 and
    [NULL_CNT] at any other, and the statement on the binary flag holds
    as well (the queue need not end with [previous_data], which the
    [break] of line 199 leaves one byte behind). *)
Theorem reachable_state_invariant (ps : list Poll) :
  (forall st,
      loop' init ps = Running st ->
      (List.length (previous_data st) <= 1)%nat /\
      (queue st = [] \/ exists q, queue st = q ++ previous_data st) /\
      0 <= null_cnt st <= NULL_CNT /\
      (ubx_flag st = true ->
       ubx_timestamp st <> None /\ exists r, queue st = UBX_SYNC ++ r)) /\
  (forall why st unread,
      loop' init ps = Stopped why st unread ->
      (List.length (previous_data st) <= 1)%nat /\
      (why = Stalled -> null_cnt st = NULL_CNT + 1) /\
      (why <> Stalled -> 0 <= null_cnt st <= NULL_CNT) /\
      (ubx_flag st = true ->
       ubx_timestamp st <> None /\ exists r, queue st = UBX_SYNC ++ r)).
Proof.
  split.
  - intros st H.
    destruct (running_state flat_time end_time ps init st Inv_init) as [[Hl Hq] Hn];
      [simpl; unfold NULL_CNT; lia | exact H |].
    pose proof (running_Binary_inv ps init st Binary_inv_init H) as Hb.
    auto.
  - intros why st unread H.
    apply (stopped_state ps init why st unread Inv_init); auto.
    + simpl. unfold NULL_CNT. lia.
    + exact Binary_inv_init.
Qed.

(** *** No exception once the timestamps are taken *)

Lemma dispatch_ready st data now0 st' :
  dispatch' st data now0 = Some st' -> ready st -> ready st'.
Proof.
  unfold dispatch, ready. intros H [Hn Hu].
  repeat match type of H with
         | context [if ?c then _ else _] => destruct c
         | context [match ?c with Some _ => _ | None => _ end] => destruct c
         end; inversion H; simpl; split; auto; discriminate.
Qed.

Lemma needed_timestamp_taken st w :
  ready st -> Binary_inv st -> needed_timestamp st w <> Some None.
Proof.
  unfold needed_timestamp, ready, Binary_inv. intros [Hn Hu] Hb.
  destruct (bytes_eqb w NMEA_START || bytes_eqb w UBX_SYNC).
  - destruct (ubx_flag st); [destruct Hb as [Hb _]; auto; congruence|].
    destruct (0 <? len (queue st) - 1); congruence.
  - destruct (bytes_eqb w CRLF); [|discriminate].
    destruct (ubx_flag st); [destruct Hb as [Hb _]; auto; congruence|].
    congruence.
Qed.

Lemma iteration_ready st p :
  no_error p = true -> ready st -> Binary_inv st ->
  step_raised (iteration' st p) = false /\
  forall st', iteration' st p = Next st' -> ready st'.
Proof.
  unfold no_error. intros He Hr Hb.
  destruct (read p) eqn:Hrd; [| |discriminate].
  all: rewrite iteration_shape by congruence; rewrite Hrd; cbn zeta.
  all: destruct (NULL_CNT <? _); [split; [reflexivity | discriminate]|].
  all: destruct (len (queue st) <? 1);
    [split; [reflexivity | intros st' H; injection H as <-; exact Hr]|].
  all: match goal with
       | |- context [dispatch' ?s ?d ?n] =>
           destruct (dispatch' s d n) as [st1|] eqn:E
       end.
  all: try (exfalso; apply dispatch_raises_iff in E;
            revert E; apply needed_timestamp_taken; assumption).
  all: apply dispatch_ready in E; [|exact Hr].
  all: destruct (past_deadline end_time (t p));
    [split; [reflexivity | discriminate]|].
  all: destruct (TERMINATOR_FLAG p);
    [split; [reflexivity | discriminate]|].
  all: split; [reflexivity | intros st' H; injection H as <-; exact E].
Qed.

Lemma loop_ready ps : forall st,
  ready st -> Binary_inv st -> forallb no_error ps = true ->
  raised (loop' st ps) = false.
Proof.
  induction ps as [|p ps IH]; intros st Hr Hb Hall; [reflexivity|].
  cbn [forallb] in Hall. apply andb_true_iff in Hall as [He Hall].
  destruct (iteration_ready st p He Hr Hb) as [Hnr Hnext].
  pose proof (iteration_Binary_inv st p) as Hb'.
  cbn [loop]. destruct (iteration' st p) as [st1|why st1].
  - apply IH; auto.
  - destruct why; try reflexivity. discriminate.
Qed.

(** X4 -- exceptions of the framer are confined to the start of a run:
    once the loop has reached a state in which the NMEA and the idle
    timestamps have both been taken, no later iteration ends in the
    exception handler unless [ser.read] itself raises. *)
Theorem no_exception_once_timestamps_taken (ps1 ps2 : list Poll) (st : State) :
  loop' init ps1 = Running st ->
  nmea_timestamp st <> None ->
  unknown_timestamp st <> None ->
  forallb no_error ps2 = true ->
  raised (loop' init (ps1 ++ ps2)) = false.
Proof.
  intros H Hn Hu Hall.
  rewrite (loop_app flat_time end_time ps1 ps2 init), H.
  apply loop_ready; [split; assumption | | exact Hall].
  exact (running_Binary_inv ps1 init st Binary_inv_init H).
Qed.

(** *** The shape of the payloads *)

Lemma sync_prefix q a r :
  UBX_SYNC ++ r = q ++ [a] -> a <> x62 -> exists r', q = UBX_SYNC ++ r'.
Proof.
  intros H Ha. destruct (list_eq_dec Byte.byte_eq_dec r []) as [-> | Hr].
  - change (UBX_SYNC ++ []) with ([xb5] ++ [x62]) in H.
    apply app_inj_tail in H as [_ H]. congruence.
  - destruct (exists_last Hr) as (r' & a' & ->).
    rewrite app_assoc in H. apply app_inj_tail in H as [H _].
    exists r'. now symmetry.
Qed.

Lemma pending_call_shape st q a :
  queue st = q ++ [a] -> a <> x62 -> Binary_inv st ->
  Forall call_shape (pending_call flat_time st).
Proof.
  unfold pending_call, Binary_inv. intros Hq Ha Hb.
  rewrite Hq, removelast_snoc.
  destruct (ubx_flag st).
  - destruct (since flat_time (ubx_timestamp st)); [|constructor].
    destruct Hb as [_ [r Hr]]; [reflexivity|]. rewrite Hq in Hr.
    destruct (sync_prefix q a r (eq_sym Hr) Ha) as [r' ->].
    repeat constructor; simpl; try discriminate. intros _. now exists r'.
  - destruct (0 <? len (q ++ [a]) - 1) eqn:E; [|constructor].
    destruct (since flat_time (unknown_timestamp st)); [|constructor].
    repeat constructor; simpl; try discriminate.
    intros ->. simpl in E. discriminate.
Qed.

Lemma dispatch_calls_shape st r q :
  (List.length (previous_data st) <= 1)%nat ->
  queue st = q ++ previous_data st ->
  Binary_inv st ->
  Forall call_shape (dispatch_calls flat_time st (data_of r)).
Proof.
  intros Hlen Hq Hb. unfold dispatch_calls.
  destruct (bytes_eqb (previous_data st ++ data_of r) NMEA_START) eqn:E1.
  { apply window_split in E1 as [Hp _]; [|assumption]. rewrite Hp in Hq.
    apply (pending_call_shape st q x24); auto. discriminate. }
  destruct (bytes_eqb (previous_data st ++ data_of r) CRLF) eqn:E2.
  { apply window_split in E2 as [Hp _]; [|assumption]. rewrite Hp in Hq.
    destruct (ubx_flag st) eqn:Hf; simpl.
    - destruct (since flat_time (ubx_timestamp st)); [|constructor].
      destruct (Hb Hf) as [_ [r0 Hr]]. rewrite Hq in Hr.
      destruct (sync_prefix q x0d r0 (eq_sym Hr)) as [r' Hq']; [discriminate|].
      rewrite Hq, removelast_snoc, Hq'.
      repeat constructor; simpl; try discriminate. intros _. now exists r'.
    - destruct (since flat_time (nmea_timestamp st)); [|constructor].
      repeat constructor; simpl; try discriminate.
      + intros C. now apply app_eq_nil in C as [_ C].
      + intros _. exists q. rewrite Hq, <- app_assoc. reflexivity. }
  destruct (bytes_eqb (previous_data st ++ data_of r) UBX_SYNC) eqn:E3.
  { apply window_split in E3 as [Hp _]; [|assumption]. rewrite Hp in Hq.
    apply (pending_call_shape st q xb5); auto. discriminate. }
  constructor.
Qed.

Lemma calls_shape st p :
  Inv st -> Binary_inv st -> Forall call_shape (calls flat_time st p).
Proof.
  intros [Hlen Hq] Hb. unfold calls.
  assert (Forall call_shape
            (if len (queue st) <? 1 then []
             else dispatch_calls flat_time st (data_of (read p)))) as H.
  { destruct (len (queue st) <? 1) eqn:E; [constructor|].
    destruct Hq as [Hq | [q Hq]].
    - rewrite Hq in E. discriminate.
    - now apply dispatch_calls_shape with q. }
  destruct (read p); [exact H | exact H | constructor].
Qed.

Lemma log_shape ps : forall st,
  Inv st -> Binary_inv st -> Forall call_shape (log' st ps).
Proof.
  induction ps as [|p ps IH]; intros st Hi Hb; cbn [log]; [constructor|].
  pose proof (calls_shape st p Hi Hb) as Hc.
  pose proof (iteration_Inv flat_time end_time st p) as HI.
  pose proof (iteration_Binary_inv st p) as HB.
  destruct (iteration' st p) as [st1|why st1].
  - apply Forall_app. split; [exact Hc|]. apply IH; auto.
  - destruct why; try exact Hc; constructor.
Qed.

Lemma save_message_shape ms c :
  call_shape c -> Forall record_shape ms ->
  Forall record_shape
         (save_message ms (call_res c) (call_timestamp c) (call_type c)).
Proof.
  intros (Hne & Hu & Hn) Hms. unfold save_message.
  destruct (render (call_res c) (call_type c)) as [d|] eqn:E.
  - pose proof (render_payload _ (call_timestamp c) _ d E) as Hp.
    assert (record_shape (mkMessage (call_timestamp c) (call_type c) d)) as Hr
        by (exists (call_res c); auto).
    repeat (apply Forall_app; split); auto.
  - apply Forall_app. split; [exact Hms|]. constructor; [|constructor].
    exists (call_res c). simpl.
    split; [unfold payload; simpl; apply fromhex_hex|].
    split; [exact Hne|]. split; discriminate.
Qed.

Lemma replay_shape cs : forall ms,
  Forall call_shape cs -> Forall record_shape ms ->
  Forall record_shape (replay cs ms).
Proof.
  induction cs as [|c cs IH]; intros ms Hcs Hms; simpl; [exact Hms|].
  inversion Hcs; subst. apply IH; [assumption|]. now apply save_message_shape.
Qed.

(** X5 -- whatever is read, every record [read_serial] holds stands for a
    non-empty payload; a record tagged "UBX" has a payload that begins
    with the sync pattern [b5 62], and a record tagged "NMEA" has a payload
    that ends with CR LF. *)
Theorem records_are_well_shaped (ps : list Poll) :
  Forall record_shape (messages (final (loop' init ps))).
Proof.
  rewrite (loop_replay flat_time end_time ps init).
  apply replay_shape; [|constructor].
  apply log_shape; [exact Inv_init | exact Binary_inv_init].
Qed.

(** *** Empty reads and stop requests *)

(** X6 -- an empty read hides a boundary.  With bytes pending, after one
    empty read the next byte is appended to the queue and nothing else
    happens, whatever that byte and the byte before the empty read are:
    the two bytes of a window are only recognised when they are read by
    consecutive iterations. *)
Theorem empty_read_hides_boundary (st : State) (p1 p2 : Poll) (b : byte) :
  read p1 = NoData -> read p2 = OneByte b ->
  calm end_time p1 = true -> calm end_time p2 = true ->
  queue st <> [] ->
  (List.length (previous_data st) <= 1)%nat ->
  null_cnt st < NULL_CNT ->
  exists st',
    loop' st [p1; p2] = Running st' /\
    queue st' = queue st ++ [b] /\ previous_data st' = [b] /\
    same_frame st st'.
Proof.
  intros H1 H2 Hc1 Hc2 Hq Hlen Hn.
  unfold calm in Hc1, Hc2.
  apply andb_true_iff in Hc1 as [Hd1 Ht1]. apply negb_true_iff in Hd1, Ht1.
  apply andb_true_iff in Hc2 as [Hd2 Ht2]. apply negb_true_iff in Hd2, Ht2.
  (* the empty read: the window is the previous byte alone *)
  cbn [loop]. rewrite (iteration_nodata flat_time end_time st p1 H1).
  replace (NULL_CNT <? null_cnt st + 1) with false
    by (symmetry; apply Z.ltb_ge; lia).
  rewrite (queue_nonempty_len _ Hq).
  rewrite (dispatch_other flat_time)
    by (simpl; rewrite app_nil_r; now apply short_window).
  rewrite Hd1, Ht1.
  (* the byte: the window is that byte alone *)
  set (st1 := set_previous_data _ []).
  assert (queue st1 = queue st) as Hq1 by (simpl; apply app_nil_r).
  rewrite (iteration_byte flat_time end_time st1 p2 b H2).
  rewrite queue_nonempty_len by (rewrite Hq1; exact Hq).
  rewrite (dispatch_other flat_time) by (apply short_window; simpl; lia).
  rewrite Hd2, Ht2.
  eexists. split; [reflexivity|]. simpl. rewrite app_nil_r.
  repeat split.
Qed.

(** X7 -- when a stop request is seen.  With the termination flag set or
    the deadline passed, an iteration still goes on to the next one
    exactly when the queue is empty (and the read did not raise and did
    not pass the stall threshold): the [continue] of line 165 skips the
    test of line 198.  With bytes pending the loop always stops. *)
Theorem stop_request_seen_iff (st : State) (p : Poll) :
  calm end_time p = false ->
  ((exists st', iteration' st p = Next st') <->
   read p <> SerialError /\ queue st = [] /\
   (read p = NoData -> null_cnt st < NULL_CNT)).
Proof.
  intros Hc. unfold calm in Hc.
  destruct (read p) eqn:Hr.
  - (* empty read *)
    rewrite (iteration_nodata flat_time end_time st p Hr).
    destruct (NULL_CNT <? null_cnt st + 1) eqn:En.
    { apply Z.ltb_lt in En. split.
      - intros [st' H]. discriminate.
      - intros (_ & _ & H). specialize (H eq_refl). lia. }
    apply Z.ltb_ge in En.
    destruct (len (queue st) <? 1) eqn:El.
    { apply len_lt_1 in El. split; [|eauto].
      intros _. repeat split; [discriminate | exact El | lia]. }
    split.
    + intros [st' H].
      destruct (dispatch' _ [] (now p)); [|discriminate].
      destruct (past_deadline end_time (t p)); [discriminate|].
      destruct (TERMINATOR_FLAG p); discriminate.
    + intros (_ & Hq & _). rewrite Hq in El. discriminate.
  - (* one byte *)
    rewrite (iteration_byte flat_time end_time st p b Hr).
    destruct (len (queue st) <? 1) eqn:El.
    { apply len_lt_1 in El. split; [|eauto].
      intros _. repeat split; [discriminate | exact El | discriminate]. }
    split.
    + intros [st' H].
      destruct (dispatch' _ [b] (now p)); [|discriminate].
      destruct (past_deadline end_time (t p)); [discriminate|].
      destruct (TERMINATOR_FLAG p); discriminate.
    + intros (_ & Hq & _). rewrite Hq in El. discriminate.
  - rewrite (iteration_error flat_time end_time st p Hr). split.
    + intros [st' H]. discriminate.
    + intros (H & _). contradiction.
Qed.

(** *** Every byte of every script *)

Lemma iteration_raised_queue st p st0 :
  iteration' st p = Break Raised st0 ->
  queue st0 = queue st /\ messages st0 = messages st.
Proof.
  intros H.
  destruct (read p) eqn:Hr;
    try (rewrite iteration_error in H by assumption; injection H as <-; auto).
  all: rewrite iteration_shape in H by congruence; rewrite Hr in H; cbn zeta in H.
  all: destruct (NULL_CNT <? _); [discriminate|].
  all: destruct (len (queue st) <? 1); [discriminate|].
  all: match type of H with
       | context [dispatch' ?s ?d ?n] => destruct (dispatch' s d n)
       end.
  all: try (destruct (past_deadline end_time (t p)); [discriminate|];
            destruct (TERMINATOR_FLAG p); discriminate).
  all: injection H as <-; auto.
Qed.

Lemma loop_cover_all ps : forall st,
  Inv st ->
  queue st ++ delivered (polled flat_time end_time st ps)
    = flat_map covered (log' st ps) ++ queue (final (loop' st ps)) ++ lost flat_time end_time st ps.
Proof.
  induction ps as [|p ps IH]; intros st Hi.
  - unfold delivered. simpl. now rewrite !app_nil_r.
  - pose proof (iteration_cover flat_time end_time st p Hi) as H.
    pose proof (iteration_Inv flat_time end_time st p) as HI.
    pose proof (iteration_raised_queue st p) as HR.
    cbn [loop log polled lost] in *. rewrite delivered_cons.
    destruct (iteration' st p) as [st1|why st1]; cbn [step_state step_raised] in *.
    + rewrite app_assoc, H by reflexivity.
      rewrite flat_map_app, <- !app_assoc. f_equal.
      apply IH; auto.
    + unfold delivered at 1; cbn [flat_map]. rewrite app_nil_r.
      destruct why; cbn [final].
      * rewrite app_nil_r. now apply H.
      * rewrite app_nil_r. now apply H.
      * rewrite app_nil_r. now apply H.
      * destruct (HR st1 eq_refl) as [-> _]. reflexivity.
Qed.

(** X8 -- the full account of the bytes read, for every script (empty
    reads, stop requests, a stall, an exception): in order, the payloads
    handed to [save_message] (with the CR LF closing a binary frame),
    then the bytes pending in the queue, then -- only when the run ended
    in an exception raised on a byte -- that one byte, which is neither
    recorded nor queued. *)
Theorem every_byte_accounted (ps : list Poll) :
  delivered (polled flat_time end_time init ps)
    = flat_map covered (log' init ps) ++ queue (final (loop' init ps))
      ++ lost flat_time end_time init ps
  /\ (List.length (lost flat_time end_time init ps) <= 1)%nat
  /\ (raised (loop' init ps) = false -> lost flat_time end_time init ps = []).
Proof.
  split; [apply (loop_cover_all ps init Inv_init)|].
  generalize init. induction ps as [|p ps IH]; intros st; cbn [lost loop].
  - split; [simpl; lia | reflexivity].
  - destruct (iteration' st p) as [st1|why st1]; [apply IH|].
    destruct why; simpl; try (split; [lia | reflexivity]).
    split; [destruct (read p); simpl; lia | discriminate].
Qed.

(** *** Before the first byte *)

Lemma idle_run ps : forall c,
  all_empty ps -> 0 <= c -> c + len ps <= NULL_CNT ->
  loop' (mkState [] [] false None None None [] c) ps
    = Running (mkState [] [] false None None None [] (c + len ps)).
Proof.
  induction ps as [|p ps IH]; intros c Ha Hc Hle.
  - unfold len. simpl. now rewrite Z.add_0_r.
  - inversion Ha as [|? ? Hr Ha']; subst.
    unfold len in *. cbn [List.length] in *.
    cbn [loop]. rewrite (iteration_nodata flat_time end_time _ p Hr).
    cbn [null_cnt queue messages ubx_flag ubx_timestamp nmea_timestamp
         unknown_timestamp].
    replace (NULL_CNT <? c + 1) with false by (symmetry; apply Z.ltb_ge; lia).
    change (len (@nil byte) <? 1) with true. cbn iota.
    change (@nil byte ++ []) with (@nil byte).
    rewrite IH by (auto; lia). do 2 f_equal. lia.
Qed.

(** X9 -- before the first byte arrives the loop looks at neither the
    termination flag nor the deadline: up to [NULL_CNT] empty reads from
    the start leave it running with nothing but the counter changed,
    whatever the polls say, and only the stall threshold ends it. *)
Theorem idle_start_ignores_stop_requests (ps : list Poll) :
  all_empty ps ->
  (len ps <= NULL_CNT ->
   loop' init ps = Running (mkState [] [] false None None None [] (len ps))) /\
  (len ps = NULL_CNT + 1 ->
   exists st, loop' init ps = Stopped Stalled st [] /\ messages st = []).
Proof.
  intros Ha. split.
  - intros Hle. apply (idle_run ps 0 Ha); lia.
  - intros Hl. now apply stall_from_start.
Qed.

(** *** A line that does not begin with ["$G"] *)

Lemma first_byte_of_frame st p b :
  read p = OneByte b -> queue st = [] ->
  iteration' st p =
    Next (mkState (messages st) [b] (ubx_flag st) (ubx_timestamp st)
                  (nmea_timestamp st) (unknown_timestamp st) [b] 0).
Proof.
  intros Hr Hq. rewrite (iteration_byte flat_time end_time st p b Hr), Hq.
  reflexivity.
Qed.

(** X10 -- after a line end, a line that forms no boundary window -- so
    it does not begin with ["$G"] -- is still saved as an NMEA sentence
    when its own CR LF arrives, stamped with the time of the last NMEA
    start seen, however long ago that was. *)
Theorem line_without_start_saved_as_nmea
    (st : State) (ps : list Poll) (p : Poll) (first : byte) (rest : bytes)
    (ts : Z) :
  queue st = [] -> ubx_flag st = false -> nmea_timestamp st = Some ts ->
  delivers ps (first :: rest) ->
  forallb (calm end_time) ps = true ->
  no_boundary first rest = true ->
  last rest first = x0d ->
  read p = OneByte x0a -> calm end_time p = true ->
  exists st',
    loop' st (ps ++ [p]) = Running st' /\
    messages st' = save_message (messages st) (first :: rest ++ [x0a])
                                (ts - flat_time) NMEA /\
    queue st' = [] /\ nmea_timestamp st' = Some ts.
Proof.
  intros Hq Hf Hn Hd Hc Hnb Hl Hr Hcp.
  destruct ps as [|p0 ps]; [discriminate|].
  injection Hd as Hr0 Hd. cbn [forallb] in Hc.
  apply andb_true_iff in Hc as [_ Hc].
  cbn [app loop]. rewrite (first_byte_of_frame st p0 first Hr0 Hq).
  rewrite (loop_app flat_time end_time).
  set (st1 := mkState (messages st) [first] (ubx_flag st) (ubx_timestamp st)
                      (nmea_timestamp st) (unknown_timestamp st) [first] 0).
  assert (queue st1 <> []) as Hq1 by (simpl; discriminate).
  destruct (plain_run flat_time end_time rest ps st1 first Hd Hc Hq1 eq_refl Hnb)
    as (st2 & -> & (Hm2 & Hf2 & _ & Hn2 & _) & Hq2 & Hp2).
  simpl in Hm2, Hf2, Hn2, Hq2. rewrite Hl in Hp2.
  cbn [loop]. rewrite (iteration_byte flat_time end_time st2 p x0a Hr).
  rewrite queue_nonempty_len by (rewrite Hq2; discriminate).
  unfold dispatch.
  cbn [set_null_cnt previous_data queue ubx_flag ubx_timestamp messages
       nmea_timestamp unknown_timestamp null_cnt].
  rewrite Hp2, Hf2, Hn2, Hm2, Hq2, Hf, Hn. simpl.
  unfold calm in Hcp. apply andb_true_iff in Hcp as [Hdp Htp].
  apply negb_true_iff in Hdp, Htp. rewrite Hdp, Htp.
  eexists. split; [reflexivity|]. simpl. auto.
Qed.

End FramerMore.

Lemma reachable_state_invariant_witness :
  let st := mkState [] [xb5; x62; x01] true (Some 2) None None [x01] 0 in
  (List.length (previous_data st) <= 1)%nat /\
  (queue st = [] \/ exists q, queue st = q ++ previous_data st) /\
  0 <= null_cnt st <= NULL_CNT /\
  (ubx_flag st = true ->
   ubx_timestamp st <> None /\ exists r, queue st = UBX_SYNC ++ r).
Proof.
  apply (proj1 (reachable_state_invariant 0 None
                  [feed 1 xb5; feed 2 x62; feed 3 x01])).
  vm_compute. reflexivity.
Defined.

Lemma no_exception_once_timestamps_taken_witness :
  raised (loop 0 None init
            (map (feed 1) [xb5; x62; x0d; x0a; x24; x47]
             ++ map (feed 2) [x41; x42; x24; x47; x0d; x0a; xb5; x62]))
  = false.
Proof.
  apply (no_exception_once_timestamps_taken 0 None
           (map (feed 1) [xb5; x62; x0d; x0a; x24; x47])
           (map (feed 2) [x41; x42; x24; x47; x0d; x0a; xb5; x62])
           (mkState [mkMessage 1 UBX (hex [xb5; x62]);
                     mkMessage 1 UBX (hex [xb5; x62])]
                    [x24; x47] false (Some 1) (Some 1) (Some 1) [x47] 0)).
  - vm_compute. reflexivity.
  - discriminate.
  - discriminate.
  - reflexivity.
Defined.

Lemma empty_read_hides_boundary_witness :
  exists st',
    loop 0 None (mkState [] [x24] false None None None [x24] 0)
         [idle 1; feed 2 x47] = Running st' /\
    queue st' = [x24] ++ [x47] /\ previous_data st' = [x47] /\
    same_frame (mkState [] [x24] false None None None [x24] 0) st'.
Proof.
  apply (empty_read_hides_boundary 0 None
           (mkState [] [x24] false None None None [x24] 0)
           (idle 1) (feed 2 x47) x47);
    first [reflexivity | discriminate | simpl; lia].
Defined.

Lemma stop_request_seen_iff_witness :
  (exists st', iteration 0 None init (mkPoll (OneByte x41) 1 1 true) = Next st') <->
  read (mkPoll (OneByte x41) 1 1 true) <> SerialError /\ queue init = [] /\
  (read (mkPoll (OneByte x41) 1 1 true) = NoData -> null_cnt init < NULL_CNT).
Proof.
  apply (stop_request_seen_iff 0 None init (mkPoll (OneByte x41) 1 1 true)).
  reflexivity.
Defined.

Lemma idle_start_ignores_stop_requests_witness :
  let ps := [mkPoll NoData 1 9 true; mkPoll NoData 2 9 true] in
  loop 0 (Some 5) init ps
    = Running (mkState [] [] false None None None [] (len ps)).
Proof.
  intros ps.
  refine (proj1 (idle_start_ignores_stop_requests 0 (Some 5) ps _) _).
  - repeat constructor.
  - vm_compute. discriminate.
Defined.

Lemma line_without_start_saved_as_nmea_witness :
  let st := mkState [] [] false None (Some 4) (Some 6) [x0a] 0 in
  exists st',
    loop 0 None st ([feed 7 x41; feed 8 x0d] ++ [feed 9 x0a]) = Running st' /\
    messages st' = save_message (messages st) (x41 :: [x0d] ++ [x0a]) (4 - 0) NMEA /\
    queue st' = [] /\ nmea_timestamp st' = Some 4.
Proof.
  intros st.
  apply (line_without_start_saved_as_nmea 0 None st [feed 7 x41; feed 8 x0d]
           (feed 9 x0a) x41 [x0d] 4); reflexivity.
Defined.

(** ** More on [read_CAN_bus] *)

Section CanBusMore.

Variable Decoded : Type.
Variable message_ids : list Z.
Variable decode_message : Z -> bytes -> option Decoded.
Variable end_time : option Z.

Local Abbreviation iteration' :=
  (can_iteration Decoded message_ids decode_message end_time).
Local Abbreviation loop' :=
  (can_loop Decoded message_ids decode_message end_time).
Local Abbreviation record_of' :=
  (can_record_of Decoded message_ids decode_message).
Local Abbreviation polled' :=
  (can_polled Decoded message_ids decode_message end_time).

Lemma can_iteration_appends ms p :
  match iteration' ms p with
  | CanNext ms' => ms'
  | CanBreak _ ms' => ms'
  end = ms ++ record_of' p.
Proof.
  unfold can_iteration, can_record_of.
  destruct (recv p) as [[m|]|]; simpl; try (now rewrite app_nil_r).
  destruct (not_in (arbitration_id m) message_ids); [now rewrite app_nil_r|].
  destruct (decode_message (arbitration_id m) (can_data m));
    [|now rewrite app_nil_r].
  destruct (can_past_deadline end_time (can_t p)); [reflexivity|].
  destruct (can_TERMINATOR_FLAG p); reflexivity.
Qed.

(** X11 -- the record list of [read_CAN_bus] is, in arrival order and
    without loss or duplication, the decoded frames of known identifier
    among the frames received up to the stop; nothing else is ever in
    it. *)
Theorem can_records_in_order (ps : list CanPoll) :
  forall ms,
    can_records (loop' ms ps) = ms ++ flat_map record_of' (polled' ms ps) /\
    (forall ms', loop' ms ps = CanRunning ms' ->
                 ms' = ms ++ flat_map record_of' ps).
Proof.
  induction ps as [|p ps IH]; intros ms.
  - simpl. split; [now rewrite app_nil_r|].
    intros ms' H; injection H as <-. now rewrite app_nil_r.
  - pose proof (can_iteration_appends ms p) as H.
    cbn [can_loop can_polled flat_map].
    destruct (iteration' ms p) as [ms1|why ms1].
    + destruct (IH ms1) as [IH1 IH2]. subst ms1. split.
      * rewrite IH1. now rewrite <- app_assoc.
      * intros ms' Hr. rewrite (IH2 ms' Hr). now rewrite <- app_assoc.
    + subst ms1. split; [simpl; now rewrite app_nil_r | discriminate].
Qed.

(** X12 -- a frame of known identifier that the database cannot decode is
    not skipped: the exception ends the loop, the records accumulated so
    far are kept (and written when there is one), and no later frame is
    ever recorded. *)
Theorem undecodable_frame_ends_capture
    (ms : list (CanObject Decoded)) (p : CanPoll) (m : CanMessage)
    (rest : list CanPoll) :
  recv p = Returned (Some m) ->
  In (arbitration_id m) message_ids ->
  decode_message (arbitration_id m) (can_data m) = None ->
  loop' ms (p :: rest) = CanStopped CanRaised ms rest /\
  can_written Decoded (loop' ms (p :: rest))
    = match ms with [] => None | _ :: _ => Some ms end.
Proof.
  intros Hr Hin Hd.
  assert (not_in (arbitration_id m) message_ids = false) as Hn.
  { destruct (not_in (arbitration_id m) message_ids) eqn:E; [|reflexivity].
    apply not_in_spec in E. contradiction. }
  assert (loop' ms (p :: rest) = CanStopped CanRaised ms rest) as E.
  { cbn [can_loop]. unfold can_iteration. rewrite Hr. simpl. now rewrite Hn, Hd. }
  split; [exact E|]. rewrite E. simpl. destruct ms; reflexivity.
Qed.

(** X13 -- stop requests in the CAN loop.  With the termination flag set
    or the deadline passed, an iteration goes on to the next one exactly
    when it received a frame of unknown identifier (the [continue] of
    line 100 skips the test of line 115); a frame of known identifier
    that decodes is still recorded before the loop stops. *)
Theorem can_stop_request_seen_iff (ms : list (CanObject Decoded)) (p : CanPoll) :
  can_calm end_time p = false ->
  ((exists ms', iteration' ms p = CanNext ms') <->
   exists m, recv p = Returned (Some m) /\ ~ In (arbitration_id m) message_ids) /\
  (forall m d,
      recv p = Returned (Some m) ->
      In (arbitration_id m) message_ids ->
      decode_message (arbitration_id m) (can_data m) = Some d ->
      exists why,
        iteration' ms p
          = CanBreak why (ms ++ [mkCanObject (can_timestamp m) (arbitration_id m) d]) /\
        (why = CanExpired \/ why = CanInterrupted)).
Proof.
  intros Hc. unfold can_calm in Hc. split; [split|].
  - intros [ms' H]. unfold can_iteration in H.
    destruct (recv p) as [[m|]|]; simpl in H; try discriminate.
    destruct (not_in (arbitration_id m) message_ids) eqn:E.
    + exists m. split; [reflexivity|]. now apply not_in_spec.
    + destruct (decode_message (arbitration_id m) (can_data m)); [|discriminate].
      destruct (can_past_deadline end_time (can_t p)); [discriminate|].
      destruct (can_TERMINATOR_FLAG p); discriminate.
  - intros (m & Hr & Hn). exists ms.
    now apply (can_iteration_unknown Decoded message_ids decode_message end_time ms p m).
  - intros m d Hr Hin Hd.
    assert (not_in (arbitration_id m) message_ids = false) as Hn.
    { destruct (not_in (arbitration_id m) message_ids) eqn:E; [|reflexivity].
      apply not_in_spec in E. contradiction. }
    unfold can_iteration. rewrite Hr. simpl. rewrite Hn, Hd.
    destruct (can_past_deadline end_time (can_t p)); [eauto|].
    destruct (can_TERMINATOR_FLAG p); [eauto | discriminate].
Qed.

End CanBusMore.

Lemma undecodable_frame_ends_capture_witness :
  let p := mkCanPoll (Returned (Some (mkCanMessage 496 [x01] 30))) 3 false in
  let q := mkCanPoll (Returned (Some (mkCanMessage 496 [x02; x03] 40))) 4 false in
  can_loop Z [496] (fun _ d => if len d <? 2 then None else Some (len d)) None
           [] (p :: [q])
  = CanStopped CanRaised [] [q].
Proof.
  intros p q.
  exact (proj1 (undecodable_frame_ends_capture Z [496]
                  (fun _ d => if len d <? 2 then None else Some (len d)) None
                  [] p (mkCanMessage 496 [x01] 30) [q]
                  eq_refl (or_introl eq_refl) eq_refl)).
Defined.

Lemma can_stop_request_seen_iff_witness :
  let p := mkCanPoll (Returned (Some (mkCanMessage 7 [x01] 30))) 3 true in
  (exists ms', can_iteration Z [496] (fun _ d => Some (len d)) None [] p
               = CanNext ms') <->
  exists m, recv p = Returned (Some m) /\ ~ In (arbitration_id m) [496].
Proof.
  intros p.
  exact (proj1 (can_stop_request_seen_iff Z [496] (fun _ d => Some (len d)) None
                  [] p eq_refl)).
Defined.

(** ** The output files *)

Lemma setup_file_empty (old : option string) :
  Files.setup_file old = Files.mkFile EmptyString 0 false.
Proof. destruct old as [[|c s]|]; reflexivity. Qed.

(** X14 -- the serial log is overwritten, not appended to: whatever the
    file held before (or if it did not exist), once [read_serial] has
    stopped the file holds exactly the JSON text of the record list of
    that moment and is closed. *)
Theorem serial_file_overwritten
    (dumps : list Message -> string) (old : option string)
    (flat : Z) (end_time : option Z) (ps : list Poll)
    (why : Stop) (st : State) (unread : list Poll) :
  loop flat end_time init ps = Stopped why st unread ->
  let f := Files.file_after Message dumps old
             (written (loop flat end_time init ps)) in
  Files.content f = dumps (messages st) /\ Files.closed f = true.
Proof.
  intros H f. subst f. rewrite H. cbn [written Files.file_after].
  unfold Files.write_to_file, write_to_file.
  rewrite setup_file_empty. simpl. auto.
Qed.

(** X15 -- the CAN log loses its previous content even when nothing is
    recorded: [setup_file] empties it before the loop, and when the loop
    stops without a record [finally] neither writes nor closes it, so the
    file is left empty and open; with at least one record the file holds
    the JSON text of the records and is closed. *)
Theorem can_file_after_stop
    (Decoded : Type) (dumps : list (CanObject Decoded) -> string)
    (old : option string) (message_ids : list Z)
    (decode_message : Z -> bytes -> option Decoded) (end_time : option Z)
    (ps : list CanPoll) (why : CanStop) (ms : list (CanObject Decoded))
    (unread : list CanPoll) :
  read_CAN_bus Decoded message_ids decode_message end_time ps
    = CanStopped why ms unread ->
  let f := Files.file_after (CanObject Decoded) dumps old
             (can_written Decoded
                (read_CAN_bus Decoded message_ids decode_message end_time ps)) in
  (ms = [] -> Files.content f = EmptyString /\ Files.closed f = false) /\
  (ms <> [] -> Files.content f = dumps ms /\ Files.closed f = true).
Proof.
  intros H f. subst f. rewrite H. cbn [can_written].
  destruct ms as [|r ms]; split; try congruence; intros _.
  - change (0 <? len (@nil (CanObject Decoded))) with false.
    cbn [Files.file_after]. rewrite setup_file_empty. auto.
  - replace (0 <? len (r :: ms)) with true
      by (symmetry; apply Z.ltb_lt; unfold len; cbn [List.length]; lia).
    cbn [Files.file_after]. unfold Files.write_to_file.
    rewrite setup_file_empty. simpl. auto.
Qed.

Lemma serial_file_overwritten_witness :
  let dumps := fun ms : list Message =>
                 if (List.length ms =? 0)%nat then "[]"%string else "[...]"%string in
  let f := Files.file_after Message dumps (Some "old log"%string)
             (written (loop 0 None init (then_terminate 1 [x41] x42))) in
  Files.content f = "[]"%string /\ Files.closed f = true.
Proof.
  intros dumps f.
  apply (serial_file_overwritten dumps (Some "old log"%string) 0 None
           (then_terminate 1 [x41] x42) Interrupted
           (mkState [] [x41; x42] false None None None [x41] 0) []).
  vm_compute. reflexivity.
Defined.

Lemma can_file_after_stop_witness :
  let dumps := fun ms : list (CanObject Z) =>
                 if (List.length ms =? 0)%nat then "[]"%string else "[...]"%string in
  let f := Files.file_after (CanObject Z) dumps (Some "old log"%string)
             (can_written Z
                (read_CAN_bus Z [496] (fun _ d => Some (len d)) None
                              [mkCanPoll (Returned None) 5 false])) in
  Files.content f = EmptyString /\ Files.closed f = false.
Proof.
  intros dumps f.
  refine (proj1 (can_file_after_stop Z dumps (Some "old log"%string) [496]
                   (fun _ d => Some (len d)) None
                   [mkCanPoll (Returned None) 5 false] CanRaised [] [] eq_refl)
                eq_refl).
Defined.

(** ** The deadline given to the two loops *)

Section Deadline.

Variable Decoded : Type.
Variable message_ids : list Z.
Variable decode_message : Z -> bytes -> option Decoded.

Lemma can_loop_past_deadline (d : Z) (ps : list CanPoll) :
  Forall (fun p => d < can_t p) ps ->
  (List.length
     (can_records (can_loop Decoded message_ids decode_message (Some d) [] ps))
   <= 1)%nat.
Proof.
  induction ps as [|p ps IH]; intros Hall; [simpl; lia|].
  inversion Hall as [|? ? Hp Hps]; subst.
  cbn [can_loop]. unfold can_iteration.
  destruct (recv p) as [[m|]|]; simpl; try lia.
  destruct (not_in (arbitration_id m) message_ids); [now apply IH|].
  destruct (decode_message (arbitration_id m) (can_data m)); [|simpl; lia].
  replace (d <? can_t p) with true by (symmetry; now apply Z.ltb_lt).
  simpl. lia.
Qed.

Lemma loop_before_deadline (flat e : Z) (ps : list Poll) : forall st,
  Forall (fun p => t p <= e) ps ->
  forall st' unread, loop flat (Some e) st ps <> Stopped Expired st' unread.
Proof.
  induction ps as [|p ps IH]; intros st Hall st' unread; [discriminate|].
  inversion Hall as [|? ? Hp Hps]; subst.
  cbn [loop].
  destruct (iteration flat (Some e) st p) as [st1|why st1] eqn:E;
    [now apply IH|].
  intros H; injection H as -> <- <-.
  destruct (read p) eqn:Hr;
    try (rewrite iteration_error in E by assumption; discriminate).
  all: rewrite iteration_shape in E by congruence; rewrite Hr in E; cbn zeta in E.
  all: destruct (NULL_CNT <? _); [discriminate|].
  all: destruct (len (queue st) <? 1); [discriminate|].
  all: match type of E with
       | context [dispatch ?f ?s ?d ?n] =>
           destruct (dispatch f s d n); [|discriminate]
       end.
  all: unfold past_deadline in E.
  all: replace (e <? t p) with false in E by (symmetry; apply Z.ltb_ge; lia).
  all: destruct (TERMINATOR_FLAG p); discriminate.
Qed.

Lemma can_loop_skips_unknown (e : option Z) (pre : list CanPoll) :
  forall ms rest,
    Forall (fun q => exists u, recv q = Returned (Some u) /\
                               ~ In (arbitration_id u) message_ids) pre ->
    can_loop Decoded message_ids decode_message e ms (pre ++ rest)
      = can_loop Decoded message_ids decode_message e ms rest.
Proof.
  induction pre as [|q pre IH]; intros ms rest Hall; [reflexivity|].
  inversion Hall as [|? ? (u & Hr & Hn) Hpre]; subst.
  cbn [app can_loop].
  rewrite (can_iteration_unknown Decoded message_ids decode_message e ms q u Hr Hn).
  now apply IH.
Qed.

(** X16 -- [main] hands the same [--end_time] value to both loops, and
    only [read_serial] adds the start time to it.  With both loops
    enabled, a duration [d] and clock readings above [d] (as those of
    [time.time()] are): [read_CAN_bus] compares the clock with the bare
    duration, so after any frames of unknown identifier it stops, with
    the deadline as the reason, at the first frame it records, leaving
    the later frames unread, and on any script its record list never
    holds more than one record; [read_serial], which is what writes the
    serial file, is not stopped by the deadline while the clock is
    within [d] of its start. *)
Theorem deadline_is_a_duration_for_serial_only
    (d flat start : Z) (pre rest : list CanPoll) (p : CanPoll)
    (m : CanMessage) (dd : Decoded) (ps : list Poll) :
  Forall (fun q => exists u, recv q = Returned (Some u) /\
                             ~ In (arbitration_id u) message_ids) pre ->
  recv p = Returned (Some m) ->
  In (arbitration_id m) message_ids ->
  decode_message (arbitration_id m) (can_data m) = Some dd ->
  d < can_t p ->
  Forall (fun q => t q <= start + d) ps ->
  main Decoded message_ids decode_message (mkArgs true true (Some d))
       (pre ++ p :: rest) flat start ps
    = Some (mkCapture
              (Some (CanStopped CanExpired
                       [mkCanObject (can_timestamp m) (arbitration_id m) dd]
                       rest))
              (Some (serial_run (Some d) flat start ps))) /\
  (forall st unread,
      serial_run (Some d) flat start ps <> Stopped Expired st unread) /\
  read_serial (Some d) flat start ps
    = written (serial_run (Some d) flat start ps) /\
  (forall cps,
      Forall (fun q => d < can_t q) cps ->
      (List.length
         (can_records
            (read_CAN_bus Decoded message_ids decode_message (Some d) cps))
       <= 1)%nat).
Proof.
  intros Hpre Hr Hin Hdec Hd Hs.
  split; [|split; [|split; [reflexivity|]]].
  - unfold main. cbn [enable_serial enable_CAN end_time_arg orb negb].
    do 2 f_equal. f_equal. unfold read_CAN_bus.
    rewrite (can_loop_skips_unknown (Some d) pre [] (p :: rest) Hpre).
    assert (not_in (arbitration_id m) message_ids = false) as Hn.
    { destruct (not_in (arbitration_id m) message_ids) eqn:E; [|reflexivity].
      apply not_in_spec in E. contradiction. }
    cbn [can_loop]. unfold can_iteration. rewrite Hr. simpl.
    rewrite Hn, Hdec.
    replace (d <? can_t p) with true by (symmetry; now apply Z.ltb_lt).
    reflexivity.
  - unfold serial_run. apply loop_before_deadline. exact Hs.
  - intros cps Hc. now apply can_loop_past_deadline.
Qed.

End Deadline.

Lemma deadline_is_a_duration_for_serial_only_witness :
  let frame := fun id c =>
    mkCanPoll (Returned (Some (mkCanMessage id [x01] c))) c false in
  main Z [496] (fun _ b => Some (len b)) (mkArgs true true (Some 10))
       ([frame 7 1001] ++ frame 496 1002 :: [frame 496 1003]) 0 1000
       [feed 1001 x41; feed 1002 x42]
  = Some (mkCapture
            (Some (CanStopped CanExpired [mkCanObject 1002 496 1]
                              [frame 496 1003]))
            (Some (serial_run (Some 10) 0 1000 [feed 1001 x41; feed 1002 x42]))).
Proof.
  intros frame.
  refine (proj1 (deadline_is_a_duration_for_serial_only Z [496]
                   (fun _ b => Some (len b)) 10 0 1000
                   [frame 7 1001] [frame 496 1003] (frame 496 1002)
                   (mkCanMessage 496 [x01] 1002) 1
                   [feed 1001 x41; feed 1002 x42] _ eq_refl _ eq_refl _ _)).
  - constructor; [|constructor].
    exists (mkCanMessage 7 [x01] 1001). split; [reflexivity|].
    simpl. intros [H | []]. discriminate H.
  - left. reflexivity.
  - reflexivity.
  - repeat constructor; vm_compute; discriminate.
Defined.
